(** * JM-Gift signature tree: store, easing, samplers and pointer handlers

    A shallow embedding of the zustand store, of the sampling functions
    ([./sampling]) and of the handlers and per-frame drivers of the
    [TreeSystem] component, as they stand in [src/tree/store.ts].

    Number model.  A JavaScript [number] is read as a real number and every
    arithmetic operation as the exact operation on [R]: rounding, overflow,
    infinities and NaN are outside the model.  Where the source divides or
    normalises, the divisor is kept visible so that "no zero-length
    normalisation" can be stated about it. *)

From Stdlib Require Import Reals Lra Lia ZArith List Psatz.
Import ListNotations.

Open Scope R_scope.

(** ** The parts of [Math] the sources call *)

Module JSMath.

(** [Math.floor]: the largest integer below or equal to [x]. *)
Definition floor (x : R) : R := IZR (Int_part x).

(** [Math.ceil]. *)
Definition ceil (x : R) : R := - IZR (Int_part (- x)).

(** [Math.round]: nearest integer, halves rounded up. *)
Definition round (x : R) : R := floor (x + 1 / 2).

(** [a % b] on numbers: the remainder has the sign of the dividend. *)
Definition rem (a b : R) : R :=
  let q := a / b in
  a - b * (if Rle_dec 0 q then floor q else ceil q).

(** [Math.pow(x, y)] for a base [0 <= x]; at base [0] the exponent is taken
    non-negative, which is how the samplers call it. *)
Definition pow (x y : R) : R :=
  if Req_dec_T x 0 then (if Req_dec_T y 0 then 1 else 0) else Rpower x y.

(** [Math.cbrt] on a non-negative argument. *)
Definition cbrt (x : R) : R :=
  if Req_dec_T x 0 then 0 else Rpower x (1 / 3).

End JSMath.

(** ** three.js: the vector, matrix and quaternion operations in use *)

Module THREE.

Module MathUtils.
(** [clamp(value, min, max) = Math.max(min, Math.min(max, value))]. *)
Definition clamp (value lo hi : R) : R := Rmax lo (Rmin hi value).

(** [lerp(x, y, t) = (1 - t) * x + t * y]. *)
Definition lerp (x y t : R) : R := (1 - t) * x + t * y.
End MathUtils.

Record Vector3 : Type := mkVector3 { vx : R; vy : R; vz : R }.

Record Quaternion : Type := mkQuaternion { qx : R; qy : R; qz : R; qw : R }.

(** The rotation block of a [Matrix4], named as [setFromRotationMatrix]
    names its entries. *)
Record Matrix4 : Type := mkMatrix4 {
  m11 : R; m12 : R; m13 : R;
  m21 : R; m22 : R; m23 : R;
  m31 : R; m32 : R; m33 : R
}.

Definition add (a b : Vector3) : Vector3 :=
  mkVector3 (vx a + vx b) (vy a + vy b) (vz a + vz b).

Definition sub (a b : Vector3) : Vector3 :=
  mkVector3 (vx a - vx b) (vy a - vy b) (vz a - vz b).

Definition multiplyScalar (a : Vector3) (s : R) : Vector3 :=
  mkVector3 (vx a * s) (vy a * s) (vz a * s).

Definition lengthSq (a : Vector3) : R :=
  vx a * vx a + vy a * vy a + vz a * vz a.

Definition length (a : Vector3) : R := sqrt (lengthSq a).

(** [divideScalar(s)] is [multiplyScalar(1 / s)]. *)
Definition divideScalar (a : Vector3) (s : R) : Vector3 :=
  multiplyScalar a (1 / s).

(** [normalize()] is [divideScalar(length() || 1)]; the divisor
    [length() || 1] is 1 for a vector of length 0. *)
Definition normalizeDivisor (a : Vector3) : R :=
  if Req_dec_T (length a) 0 then 1 else length a.

Definition normalize (a : Vector3) : Vector3 :=
  divideScalar a (normalizeDivisor a).

Definition cross (a b : Vector3) : Vector3 :=
  mkVector3 (vy a * vz b - vz a * vy b)
            (vz a * vx b - vx a * vz b)
            (vx a * vy b - vy a * vx b).

(** [a.lerp(v, alpha)]: each coordinate moves by [alpha] of the gap. *)
Definition lerp (a v : Vector3) (alpha : R) : Vector3 :=
  mkVector3 (vx a + (vx v - vx a) * alpha)
            (vy a + (vy v - vy a) * alpha)
            (vz a + (vz v - vz a) * alpha).

(** [Quaternion.setFromEuler] for the default order XYZ. *)
Definition setFromEuler (x y z : R) : Quaternion :=
  let c1 := cos (x / 2) in
  let c2 := cos (y / 2) in
  let c3 := cos (z / 2) in
  let s1 := sin (x / 2) in
  let s2 := sin (y / 2) in
  let s3 := sin (z / 2) in
  mkQuaternion (s1 * c2 * c3 + c1 * s2 * s3)
               (c1 * s2 * c3 - s1 * c2 * s3)
               (c1 * c2 * s3 + s1 * s2 * c3)
               (c1 * c2 * c3 - s1 * s2 * s3).

(** [Matrix4.makeBasis]: the three axes become the columns. *)
Definition makeBasis (x y z : Vector3) : Matrix4 :=
  mkMatrix4 (vx x) (vx y) (vx z)
            (vy x) (vy y) (vy z)
            (vz x) (vz y) (vz z).

(** [Matrix4.lookAt(eye, target, up)]. *)
Definition lookAt (eye target up : Vector3) : Matrix4 :=
  let z0 := sub eye target in
  let z1 := if Req_dec_T (lengthSq z0) 0
            then mkVector3 (vx z0) (vy z0) 1 else z0 in
  let z2 := normalize z1 in
  let x0 := cross up z2 in
  let z3 := if Req_dec_T (lengthSq x0) 0
            then normalize
                   (if Req_dec_T (Rabs (vz up)) 1
                    then mkVector3 (vx z2 + 1 / 10000) (vy z2) (vz z2)
                    else mkVector3 (vx z2) (vy z2) (vz z2 + 1 / 10000))
            else z2 in
  let x1 := if Req_dec_T (lengthSq x0) 0 then cross up z3 else x0 in
  let x2 := normalize x1 in
  let y0 := cross z3 x2 in
  makeBasis x2 y0 z3.

(** The comparison [a > b] as the boolean a JavaScript condition tests. *)
Definition gtb (a b : R) : bool := if Rlt_dec b a then true else false.

(** [Quaternion.setFromRotationMatrix]. *)
Definition setFromRotationMatrix (m : Matrix4) : Quaternion :=
  let trace := m11 m + m22 m + m33 m in
  if gtb trace 0 then
    let s := (1 / 2) / sqrt (trace + 1) in
    mkQuaternion ((m32 m - m23 m) * s) ((m13 m - m31 m) * s)
                 ((m21 m - m12 m) * s) ((1 / 4) / s)
  else if (gtb (m11 m) (m22 m) && gtb (m11 m) (m33 m))%bool then
    let s := 2 * sqrt (1 + m11 m - m22 m - m33 m) in
    mkQuaternion ((1 / 4) * s) ((m12 m + m21 m) / s)
                 ((m13 m + m31 m) / s) ((m32 m - m23 m) / s)
  else if gtb (m22 m) (m33 m) then
    let s := 2 * sqrt (1 + m22 m - m11 m - m33 m) in
    mkQuaternion ((m12 m + m21 m) / s) ((1 / 4) * s)
                 ((m23 m + m32 m) / s) ((m13 m - m31 m) / s)
  else
    let s := 2 * sqrt (1 + m33 m - m11 m - m22 m) in
    mkQuaternion ((m13 m + m31 m) / s) ((m23 m + m32 m) / s)
                 ((1 / 4) * s) ((m21 m - m12 m) / s).

Definition quatNormSq (q : Quaternion) : R :=
  qx q * qx q + qy q * qy q + qz q * qz q + qw q * qw q.

End THREE.

(** ** store.ts: the morph state store *)

Module Store.

Inductive TreeMorphState : Type := SCATTERED | TREE_SHAPE.

Definition TreeMorphState_eqb (a b : TreeMorphState) : bool :=
  match a, b with
  | SCATTERED, SCATTERED | TREE_SHAPE, TREE_SHAPE => true
  | _, _ => false
  end.

(** The data fields of [TreeStore]; the function fields are the
    definitions below. *)
Record TreeStore : Type := mkTreeStore {
  state : TreeMorphState;
  progress : R;
  selectedPolaroid : option nat
}.

(** The object handed to [create]. *)
Definition initial : TreeStore := mkTreeStore TREE_SHAPE 1 None.

(** [toggle]: zustand's [set] merges the returned fields into the previous
    state, so [selectedPolaroid] is kept. *)
Definition toggle (prev : TreeStore) : TreeStore :=
  let nextState :=
    if TreeMorphState_eqb (state prev) SCATTERED
    then TREE_SHAPE else SCATTERED in
  mkTreeStore nextState
              (if TreeMorphState_eqb nextState TREE_SHAPE then 1 else 0)
              (selectedPolaroid prev).

Definition setProgress (p : R) (s : TreeStore) : TreeStore :=
  mkTreeStore (state s) p (selectedPolaroid s).

Definition setState (m : TreeMorphState) (s : TreeStore) : TreeStore :=
  mkTreeStore m (progress s) (selectedPolaroid s).

Definition setSelectedPolaroid (i : option nat) (s : TreeStore) : TreeStore :=
  mkTreeStore (state s) (progress s) i.

Definition selectPolaroid (i : nat) (s : TreeStore) : TreeStore :=
  mkTreeStore (state s) (progress s) (Some i).

Definition clearPolaroid (s : TreeStore) : TreeStore :=
  mkTreeStore (state s) (progress s) None.

End Store.

(** ** sampling.ts: easing and procedural placement *)

Module Sampling.
Import THREE.

Record MorphPoint : Type := mkMorphPoint {
  scatterPosition : Vector3;
  treePosition : Vector3;
  scatterQuaternion : Quaternion;
  treeQuaternion : Quaternion;
  scatterScale : Vector3;
  treeScale : Vector3;
  seed : R
}.

Record ConeParams : Type := mkConeParams {
  height : R;
  radiusBase : R;
  radiusTop : R;
  yBase : R
}.

(** [Math.pow(-2 * t + 2, 3)] has the literal exponent 3: a cube, also of
    a negative base. *)
Definition easeInOutCubic (t : R) : R :=
  if Rlt_dec t (1 / 2) then 4 * t * t * t else 1 - (-2 * t + 2) ^ 3 / 2.

(** *** The random source

    [Math.random] is a stateful generator.  Its state is the sequence of
    numbers it is still going to return; a sampler takes that state and
    hands back what is left of it. *)

Definition Rng : Type := nat -> R.

Definition Rand (A : Type) : Type := Rng -> A * Rng.

Definition ret {A : Type} (a : A) : Rand A := fun g => (a, g).

Definition bind {A B : Type} (m : Rand A) (k : A -> Rand B) : Rand B :=
  fun g => let (a, g') := m g in k a g'.

(** One call [rng()]. *)
Definition random : Rand R := fun g => (g 0%nat, fun n => g (S n)).

Notation "x <- m ;; k" := (bind m (fun x => k))
  (at level 61, m at next level, right associativity).

Definition randomPointInSphere (radius : R) : Rand Vector3 :=
  u <- random ;;
  v <- random ;;
  w <- random ;;
  let theta := 2 * PI * u in
  let phi := acos (2 * v - 1) in
  let r := radius * JSMath.cbrt w in
  let sinPhi := sin phi in
  ret (mkVector3 (r * sinPhi * cos theta) (r * cos phi)
                 (r * sinPhi * sin theta)).

Definition coneRadiusAtY (y : R) (p : ConeParams) : R :=
  let tt := MathUtils.clamp ((y - yBase p) / height p) 0 1 in
  MathUtils.lerp (radiusBase p) (radiusTop p) tt.

(** The local [t] of [randomPointInConeBiased]: the height fraction that a
    draw [raw] is turned into. *)
Definition heightFraction (raw heightBias : R) : R :=
  JSMath.pow raw (1 / heightBias).

Definition randomPointInConeBiased
           (p : ConeParams) (surfaceBias heightBias : R) : Rand Vector3 :=
  raw <- random ;;
  let t := heightFraction raw heightBias in
  let y := yBase p + t * height p in
  let rMax := coneRadiusAtY y p in
  raw2 <- random ;;
  let r := rMax * JSMath.pow raw2 surfaceBias in
  raw3 <- random ;;
  let ang := raw3 * PI * 2 in
  ret (mkVector3 (r * cos ang) y (r * sin ang)).

Definition randomQuaternion : Rand Quaternion :=
  a <- random ;;
  b <- random ;;
  c <- random ;;
  ret (setFromEuler ((a - 1 / 2) * PI) ((b - 1 / 2) * PI) ((c - 1 / 2) * PI)).

(** The vector [outward] of [outwardQuaternionFromPosition] as it stands
    when [normalize()] is called on it. *)
Definition outwardGuarded (pos : Vector3) : Vector3 :=
  let outward := mkVector3 (vx pos) 0 (vz pos) in
  if Rlt_dec (lengthSq outward) (1 / 1000000)
  then mkVector3 1 0 0 else outward.

Definition outwardQuaternionFromPosition (pos : Vector3) : Quaternion :=
  let outward := normalize (outwardGuarded pos) in
  let origin := mkVector3 0 (vy pos) 0 in
  let target := mkVector3 (vx outward) (vy pos) (vz outward) in
  let m := lookAt origin target (mkVector3 0 1 0) in
  setFromRotationMatrix m.

(** [for (let i = 0; i < count; i++) pts.push(body(i))] for an integer
    [count]: the body runs for [i = 0 .. count - 1], not at all when
    [count <= 0]. *)
Fixpoint pushLoop {A : Type} (n i : nat) (body : nat -> Rand A)
  : Rand (list A) :=
  match n with
  | O => ret []
  | S n' =>
      p <- body i ;;
      ps <- pushLoop n' (S i) body ;;
      ret (p :: ps)
  end.

Definition forPush {A : Type} (count : Z) (body : nat -> Rand A)
  : Rand (list A) :=
  pushLoop (Z.to_nat count) 0 body.

Record ScaleRange : Type := mkScaleRange { min : R; max : R }.

(** The [opts] argument of [buildMorphPoints]; an absent optional field is
    [None]. *)
Record MorphOpts : Type := mkMorphOpts {
  scatterRadius : R;
  cone : ConeParams;
  baseScale : ScaleRange;
  surfaceBias : option R;
  heightBias : option R;
  extraTreeRadialOffset : option R
}.

Definition withDefault (o : option R) (d : R) : R :=
  match o with Some x => x | None => d end.

(** One turn of the loop of [buildMorphPoints]. *)
Definition morphPointAt (opts : MorphOpts) (i : nat) : Rand MorphPoint :=
  let surfaceBias := withDefault (surfaceBias opts) (25 / 100) in
  let heightBias := withDefault (heightBias opts) (18 / 10) in
  let extraTreeRadialOffset := withDefault (extraTreeRadialOffset opts) 0 in
  let seed := (INR i + 1) * 99991 in
  scatterPosition <- randomPointInSphere (scatterRadius opts) ;;
  treePosition0 <-
    randomPointInConeBiased (cone opts) surfaceBias heightBias ;;
  let treePosition :=
    if Req_dec_T extraTreeRadialOffset 0 then treePosition0
    else
      let radial := mkVector3 (vx treePosition0) 0 (vz treePosition0) in
      if gtb (lengthSq radial) (1 / 1000000)
      then add treePosition0
               (multiplyScalar (normalize radial) extraTreeRadialOffset)
      else treePosition0 in
  raw <- random ;;
  let s := MathUtils.lerp (min (baseScale opts)) (max (baseScale opts)) raw in
  let scale := multiplyScalar (mkVector3 1 1 1) s in
  scatterQuaternion <- randomQuaternion ;;
  ret (mkMorphPoint scatterPosition treePosition scatterQuaternion
                    (outwardQuaternionFromPosition treePosition)
                    scale scale seed).

Definition buildMorphPoints (count : Z) (opts : MorphOpts)
  : Rand (list MorphPoint) :=
  forPush count (morphPointAt opts).

(** The locals [layers] and [perLayer] of [buildPolaroidPoints]. *)
Definition polaroidLayers (count : Z) : R :=
  Rmax 1 (JSMath.round (sqrt (IZR count))).

Definition polaroidPerLayer (count : Z) : R :=
  Rmax 1 (JSMath.ceil (IZR count / polaroidLayers count)).

(** The locals [layer], [idx] and [tY] at index [i]. *)
Definition polaroidLayer (count : Z) (i : nat) : R :=
  JSMath.floor (INR i / polaroidPerLayer count).

Definition polaroidIdx (count : Z) (i : nat) : R :=
  JSMath.rem (INR i) (polaroidPerLayer count).

Definition polaroidTY (count : Z) (i : nat) : R :=
  (polaroidLayer count i + 8 / 10) / (polaroidLayers count + 6 / 10).

(** The tree position of panel [i]. *)
Definition polaroidTreePosition (cone : ConeParams) (count : Z) (i : nat)
  : Vector3 :=
  let layer := polaroidLayer count i in
  let idx := polaroidIdx count i in
  let tY := polaroidTY count i in
  let y := yBase cone + tY * height cone in
  let r := coneRadiusAtY y cone * (108 / 100) in
  let ang := (idx / polaroidPerLayer count) * PI * 2 + layer * (45 / 100) in
  mkVector3 (r * cos ang) y (r * sin ang).

(** One turn of the loop of [buildPolaroidPoints]. *)
Definition polaroidPointAt (cone : ConeParams) (count : Z) (i : nat)
  : Rand MorphPoint :=
  let treePosition := polaroidTreePosition cone count i in
  scatterPosition <- randomPointInSphere 10 ;;
  scatterQuaternion <- randomQuaternion ;;
  ret (mkMorphPoint scatterPosition treePosition scatterQuaternion
                    (outwardQuaternionFromPosition treePosition)
                    (mkVector3 (9 / 10) (9 / 10) (9 / 10))
                    (mkVector3 (9 / 10) (9 / 10) (9 / 10))
                    ((INR i + 1) * 31337)).

Definition buildPolaroidPoints (cone : ConeParams) (count : Z)
  : Rand (list MorphPoint) :=
  forPush count (polaroidPointAt cone count).

(** [buildPolaroidPoints20]: the builder at its former fixed count. *)
Definition buildPolaroidPoints20 (cone : ConeParams) : Rand (list MorphPoint) :=
  buildPolaroidPoints cone 20.

(** What [Math.random] promises of its results: [0 <= x < 1]. *)
Definition unitRange (g : Rng) : Prop := forall n, 0 <= g n < 1.

(** The generator after [k] calls. *)
Definition shift (k : nat) (g : Rng) : Rng := fun n => g (k + n)%nat.

End Sampling.

(** ** TreeSystem.tsx: input handlers and per-frame drivers *)

Module TreeSystem.
Import THREE Store Sampling.

(** The [keydown] listener: [e.code === "Space" && toggle()]. *)
Definition onKey (isSpace : bool) (s : TreeStore) : TreeStore :=
  if isSpace then toggle s else s.

(** The [wheel] listener; [progress] is the value its closure holds. *)
Definition onWheel (progress deltaY : R) (s : TreeStore) : TreeStore :=
  let speed := 12 / 10000 in
  let next := MathUtils.clamp (progress - deltaY * speed) 0 1 in
  setState (if gtb next (1 / 2) then TREE_SHAPE else SCATTERED)
           (setProgress next s).

(** [onPointerDown] of the outer group of [TreeSystem]: what a
    pointer-down on the scene outside every panel runs. *)
Definition groupOnPointerDown (s : TreeStore) : TreeStore :=
  match state s, selectedPolaroid s with
  | SCATTERED, Some _ => clearPolaroid s
  | _, _ => s
  end.

(** [onPointerDown] of panel [i] in [PolaroidField]; it stops the event,
    so the group's handler does not run after it. *)
Definition polaroidOnPointerDown (i : nat) (s : TreeStore) : TreeStore :=
  match state s with
  | SCATTERED => selectPolaroid i s
  | TREE_SHAPE => s
  end.

(** The inputs the scene listens to. *)
Inductive Input : Type :=
| KeyDown (isSpace : bool)
| Wheel (deltaY : R)
| PanelPointerDown (i : nat)
| BackgroundPointerDown.

Definition handle (e : Input) (s : TreeStore) : TreeStore :=
  match e with
  | KeyDown isSpace => onKey isSpace s
  | Wheel deltaY => onWheel (progress s) deltaY s
  | PanelPointerDown i => polaroidOnPointerDown i s
  | BackgroundPointerDown => groupOnPointerDown s
  end.

Definition run (es : list Input) (s : TreeStore) : TreeStore :=
  fold_left (fun acc e => handle e acc) es s.

(** The local [t] of both [useFrame] callbacks. *)
Definition morphFactor (s : TreeStore) : R := easeInOutCubic (progress s).

(** [MorphInstanced]: position and scale written for one element. *)
Definition instancedPosition (s : TreeStore) (time wobble : R)
           (p : MorphPoint) : Vector3 :=
  let t := morphFactor s in
  let pos := lerp (scatterPosition p) (treePosition p) t in
  let k := (1 - t) * wobble in
  mkVector3 (vx pos)
            (vy pos + sin (time * (9 / 10) + seed p * (1 / 10000)) * k)
            (vz pos).

Definition instancedScale (s : TreeStore) (p : MorphPoint) : Vector3 :=
  lerp (scatterScale p) (treeScale p) (morphFactor s).

(** [PolaroidField]: the alignment weight. *)
Definition alignEased (s : TreeStore) : R :=
  let t := morphFactor s in
  let align := MathUtils.clamp ((t - 75 / 100) / (25 / 100)) 0 1 in
  align * align * (3 - 2 * align).

Definition worldUp : Vector3 := mkVector3 0 1 0.

(** [PolaroidField]: the vector [right] as it stands when [normalize()]
    is called on it. *)
Definition rightGuarded (outward : Vector3) : Vector3 :=
  let right := cross outward worldUp in
  if Rlt_dec (lengthSq right) (1 / 100000000)
  then mkVector3 1 0 0 else right.

(** [PolaroidField]: the upright orientation of a panel. *)
Definition uprightQuaternion (center : Vector3) (p : MorphPoint)
  : Quaternion :=
  let outward := normalize (sub center (treePosition p)) in
  let right := normalize (rightGuarded outward) in
  let up := normalize (cross right outward) in
  setFromRotationMatrix (makeBasis right up outward).

(** [PolaroidField]: the test that sends panel [i] to the focus branch. *)
Definition isFocused (s : TreeStore) (i : nat) : bool :=
  (TreeMorphState_eqb (state s) SCATTERED
   && match selectedPolaroid s with
      | Some j => Nat.eqb j i
      | None => false
      end)%bool.

(** [PolaroidField], normal branch: position and scale of a panel. *)
Definition polaroidPosition (s : TreeStore) (p : MorphPoint) : Vector3 :=
  lerp (scatterPosition p) (treePosition p) (morphFactor s).

Definition polaroidScale (s : TreeStore) (p : MorphPoint) : Vector3 :=
  lerp (scatterScale p) (treeScale p) (morphFactor s).

(** [PolaroidField], focus branch: one frame moves the panel towards the
    point in front of the camera, [focusLocal], and towards the enlarged
    scale. *)
Definition focusPositionStep (focusLocal position : Vector3) : Vector3 :=
  lerp position focusLocal (18 / 100).

Definition focusScaleStep (scale : Vector3) : Vector3 :=
  lerp scale (mkVector3 (23 / 10) (23 / 10) (23 / 10)) (18 / 100).

(** [buildGarlandPoints]: the local [rng], a repeatable hash of the index. *)
Definition garlandRng (i : R) : R :=
  let x := sin (i * (999123 / 1000)) * 10000 in
  x - JSMath.floor x.

(** [buildGarlandPoints]: the locals [u] and [treePos] at index [i]. *)
Definition garlandU (count : Z) (i : nat) : R := INR i / (IZR count - 1).

Definition garlandTreePosition
           (cone : ConeParams) (count : Z) (turns : R) (i : nat) : Vector3 :=
  let u := garlandU count i in
  let y := yBase cone + u * height cone in
  let radius := MathUtils.lerp (radiusBase cone) (radiusTop cone) u in
  let angle := u * turns * PI * 2 in
  let r := radius + 32 / 100 in
  mkVector3 (cos angle * r) y (sin angle * r).

(** [buildGarlandPoints]: the local [scatterPos] at index [i]. *)
Definition garlandScatterPosition (cone : ConeParams) (i : nat) : Vector3 :=
  let rr := MathUtils.lerp (radiusBase cone + 6) (radiusBase cone + 10)
                           (garlandRng (INR i)) in
  let aa := garlandRng (INR i + 7) * PI * 2 in
  let sy := MathUtils.lerp (yBase cone - 1) (yBase cone + height cone + 2)
                           (garlandRng (INR i + 13)) in
  mkVector3 (cos aa * rr) sy (sin aa * rr).

(** One turn of the loop of [buildGarlandPoints].  three.js's
    [Quaternion.setFromUnitVectors] is taken as a parameter. *)
Definition garlandPointAt
           (setFromUnitVectors : Vector3 -> Vector3 -> Quaternion)
           (cone : ConeParams) (count : Z) (turns : R) (i : nat)
  : MorphPoint :=
  let treePos := garlandTreePosition cone count turns i in
  let outward :=
    normalize
      (sub treePos
           (mkVector3 0 (yBase cone + height cone * (1 / 2)) 0)) in
  let treeQuat := setFromUnitVectors (mkVector3 0 0 1) outward in
  let treeScale := mkVector3 (22 / 100) (22 / 100) (22 / 100) in
  let scatterPos := garlandScatterPosition cone i in
  let scatterQuat :=
    setFromEuler (garlandRng (INR i + 1) * PI) (garlandRng (INR i + 2) * PI)
                 (garlandRng (INR i + 3) * PI) in
  let scatterScale := mkVector3 (22 / 100) (22 / 100) (22 / 100) in
  mkMorphPoint scatterPos treePos scatterQuat treeQuat
               scatterScale treeScale (INR i).

Definition buildGarlandPoints
           (setFromUnitVectors : Vector3 -> Vector3 -> Quaternion)
           (cone : ConeParams) (count : Z) (turns : R) : list MorphPoint :=
  map (garlandPointAt setFromUnitVectors cone count turns)
      (seq 0 (Z.to_nat count)).

(** [buildGarlandCurve]: the points the Catmull-Rom curve is laid
    through. *)
Definition garlandCurvePoint
           (cone : ConeParams) (turns : R) (samples : Z) (i : nat) : Vector3 :=
  let u := INR i / (IZR samples - 1) in
  let y := yBase cone + u * height cone in
  let radius := MathUtils.lerp (radiusBase cone) (radiusTop cone) u in
  let r := radius + 35 / 100 in
  let a := u * turns * PI * 2 in
  let x := cos a * r in
  let z := sin a * r in
  mkVector3 x y z.

Definition garlandCurvePoints
           (cone : ConeParams) (turns : R) (samples : Z) : list Vector3 :=
  map (garlandCurvePoint cone turns samples) (seq 0 (Z.to_nat samples)).

End TreeSystem.

(** * Properties *)

Import THREE Store Sampling TreeSystem.

(** ** Easing *)

Section Easing.

Lemma cube_le (a b : R) : a <= b -> a ^ 3 <= b ^ 3.
Proof.
  intros Hab.
  assert (Hsq : 0 <= b * b + a * b + a * a) by nra.
  replace (b ^ 3) with (a ^ 3 + (b - a) * (b * b + a * b + a * a)) by ring.
  nra.
Qed.

Lemma cube_lt (a b : R) : a < b -> a ^ 3 < b ^ 3.
Proof.
  intros Hab.
  assert (Hsq : 0 < b * b + a * b + a * a).
  { pose proof (Rle_0_sqr (a + b / 2)) as H1. unfold Rsqr in H1.
    replace (b * b + a * b + a * a)
      with ((a + b / 2) * (a + b / 2) + 3 / 4 * (b * b)) by field.
    destruct (Req_dec_T b 0) as [E | E].
    - subst b. replace (a + 0 / 2) with a by field.
      assert (0 < a * a) by (apply Rsqr_pos_lt; lra). lra.
    - assert (H2 : 0 < b * b) by (apply Rsqr_pos_lt; exact E). lra. }
  replace (b ^ 3) with (a ^ 3 + (b - a) * (b * b + a * b + a * a)) by ring.
  nra.
Qed.

Lemma easeInOutCubic_low (t : R) :
  t < 1 / 2 -> easeInOutCubic t = 4 * t ^ 3.
Proof.
  intros Ht. unfold easeInOutCubic.
  destruct (Rlt_dec t (1 / 2)); [ring | lra].
Qed.

Lemma easeInOutCubic_high (t : R) :
  1 / 2 <= t -> easeInOutCubic t = 1 - 4 * (1 - t) ^ 3.
Proof.
  intros Ht. unfold easeInOutCubic.
  destruct (Rlt_dec t (1 / 2)); [lra | field].
Qed.

Lemma easeInOutCubic_mono (a b : R) :
  a <= b -> easeInOutCubic a <= easeInOutCubic b.
Proof.
  intros Hab.
  destruct (Rlt_dec a (1 / 2)) as [Ha | Ha];
    destruct (Rlt_dec b (1 / 2)) as [Hb | Hb].
  - rewrite !easeInOutCubic_low by assumption.
    pose proof (cube_le a b Hab). lra.
  - rewrite easeInOutCubic_low by assumption.
    rewrite easeInOutCubic_high by lra.
    pose proof (cube_le a (1 / 2) (Rlt_le _ _ Ha)) as H1.
    assert (H2 : (1 - b) ^ 3 <= (1 / 2) ^ 3) by (apply cube_le; lra).
    lra.
  - lra.
  - rewrite !easeInOutCubic_high by lra.
    assert (H : (1 - b) ^ 3 <= (1 - a) ^ 3) by (apply cube_le; lra).
    lra.
Qed.

Lemma easeInOutCubic_0 : easeInOutCubic 0 = 0.
Proof. rewrite easeInOutCubic_low by lra. ring. Qed.

Lemma easeInOutCubic_1 : easeInOutCubic 1 = 1.
Proof. rewrite easeInOutCubic_high by lra. ring. Qed.

Lemma easeInOutCubic_half : easeInOutCubic (1 / 2) = 1 / 2.
Proof. rewrite easeInOutCubic_high by lra. field. Qed.

Lemma easeInOutCubic_above (t : R) : 1 < t -> 1 < easeInOutCubic t.
Proof.
  intros Ht. rewrite easeInOutCubic_high by lra.
  assert (H : (1 - t) ^ 3 < 0 ^ 3) by (apply cube_lt; lra).
  lra.
Qed.

Lemma easeInOutCubic_below (t : R) : t < 0 -> easeInOutCubic t < 0.
Proof.
  intros Ht. rewrite easeInOutCubic_low by lra.
  assert (H : t ^ 3 < 0 ^ 3) by (apply cube_lt; lra).
  lra.
Qed.

End Easing.

(** ** The store and the handlers *)

Section StoreInvariant.

Definition progressInRange (s : TreeStore) : Prop := 0 <= progress s <= 1.

Lemma clamp_unit (x : R) : 0 <= MathUtils.clamp x 0 1 <= 1.
Proof.
  unfold MathUtils.clamp, Rmax, Rmin.
  destruct (Rle_dec 1 x); destruct (Rle_dec 0 _); lra.
Qed.

Lemma initial_in_range : progressInRange initial.
Proof. unfold progressInRange; simpl; lra. Qed.

Lemma toggle_in_range (s : TreeStore) : progressInRange (toggle s).
Proof.
  unfold progressInRange, toggle.
  destruct (state s); simpl; lra.
Qed.

Lemma onWheel_in_range (seen deltaY : R) (s : TreeStore) :
  progressInRange (onWheel seen deltaY s).
Proof. unfold progressInRange, onWheel; simpl. apply clamp_unit. Qed.

Lemma handle_in_range (e : Input) (s : TreeStore) :
  progressInRange s -> progressInRange (handle e s).
Proof.
  intros Hs. destruct e as [isSpace | deltaY | i | ]; simpl.
  - destruct isSpace; simpl; [apply toggle_in_range | exact Hs].
  - apply onWheel_in_range.
  - unfold polaroidOnPointerDown. destruct (state s); exact Hs.
  - unfold groupOnPointerDown.
    destruct (state s); destruct (selectedPolaroid s); exact Hs.
Qed.

Lemma run_in_range (es : list Input) :
  forall s, progressInRange s -> progressInRange (run es s).
Proof.
  induction es as [| e es IH]; intros s Hs; simpl.
  - exact Hs.
  - apply IH. apply handle_in_range. exact Hs.
Qed.

End StoreInvariant.

(** C4.  On [0,1] the easing stays in [0,1], fixes 0, 1/2 and 1, and is
    non-decreasing; it is the cubic [4 t^3] below one half and the mirror
    image [1 - 4 (1 - t)^3] from one half on, so that
    [ease t + ease (1 - t) = 1]. *)
Theorem easeInOutCubic_on_unit_interval :
  (forall p, 0 <= p <= 1 -> 0 <= easeInOutCubic p <= 1) /\
  easeInOutCubic 0 = 0 /\
  easeInOutCubic 1 = 1 /\
  easeInOutCubic (1 / 2) = 1 / 2 /\
  (forall a b, 0 <= a -> a <= b -> b <= 1 ->
               easeInOutCubic a <= easeInOutCubic b) /\
  (forall t, t < 1 / 2 -> easeInOutCubic t = 4 * t ^ 3) /\
  (forall t, 1 / 2 <= t -> easeInOutCubic t = 1 - 4 * (1 - t) ^ 3) /\
  (forall t, easeInOutCubic t + easeInOutCubic (1 - t) = 1).
Proof.
  repeat split.
  - rewrite <- easeInOutCubic_0. apply easeInOutCubic_mono. lra.
  - rewrite <- easeInOutCubic_1. apply easeInOutCubic_mono. lra.
  - apply easeInOutCubic_0.
  - apply easeInOutCubic_1.
  - apply easeInOutCubic_half.
  - intros a b _ Hab _. apply easeInOutCubic_mono. exact Hab.
  - apply easeInOutCubic_low.
  - apply easeInOutCubic_high.
  - intros t. destruct (Rlt_dec t (1 / 2)) as [Ht | Ht].
    + rewrite (easeInOutCubic_low t) by assumption.
      rewrite (easeInOutCubic_high (1 - t)) by lra.
      replace (1 - (1 - t)) with t by ring. ring.
    + rewrite (easeInOutCubic_high t) by lra.
      destruct (Req_dec_T t (1 / 2)) as [E | E].
      * subst t. replace (1 - 1 / 2) with (1 / 2) by field.
        rewrite easeInOutCubic_half. field.
      * rewrite (easeInOutCubic_low (1 - t)) by lra. ring.
Qed.

Lemma easeInOutCubic_on_unit_interval_witness :
  0 <= 1 / 4 <= 1 /\ 0 <= easeInOutCubic (1 / 4) <= 1.
Proof.
  split; [lra |].
  apply (proj1 easeInOutCubic_on_unit_interval (1 / 4)). lra.
Defined.

(** C5.  [toggle] flips the mode and snaps [progress] to 1 for TREE_SHAPE
    and to 0 for SCATTERED, leaving the selection alone; from the initial
    store one toggle gives SCATTERED at 0 and a second one gives the initial
    store back. *)
Theorem toggle_flips_and_round_trips :
  (forall s,
      state (toggle s)
      = match state s with SCATTERED => TREE_SHAPE | TREE_SHAPE => SCATTERED end
      /\ progress (toggle s)
         = match state (toggle s) with TREE_SHAPE => 1 | SCATTERED => 0 end
      /\ selectedPolaroid (toggle s) = selectedPolaroid s) /\
  initial = mkTreeStore TREE_SHAPE 1 None /\
  toggle initial = mkTreeStore SCATTERED 0 None /\
  toggle (toggle initial) = mkTreeStore TREE_SHAPE 1 None.
Proof.
  split; [| repeat split].
  intros [m p sel]. destruct m; repeat split.
Qed.

(** C6.  A pointer-down on panel [i] selects it when the mode is SCATTERED
    and changes nothing else; when the mode is TREE_SHAPE the store is left
    as it is, so an empty selection stays empty. *)
Theorem polaroidOnPointerDown_only_when_scattered :
  (forall i s, state s = SCATTERED ->
               polaroidOnPointerDown i s
               = mkTreeStore SCATTERED (progress s) (Some i)) /\
  (forall i s, state s = TREE_SHAPE -> polaroidOnPointerDown i s = s) /\
  (forall i s, state s = TREE_SHAPE -> selectedPolaroid s = None ->
               selectedPolaroid (polaroidOnPointerDown i s) = None) /\
  selectedPolaroid (run [KeyDown true; PanelPointerDown 3] initial) = Some 3%nat /\
  run [PanelPointerDown 3] initial = initial.
Proof.
  repeat split.
  - intros i s Hs. unfold polaroidOnPointerDown, selectPolaroid.
    rewrite Hs. reflexivity.
  - intros i s Hs. unfold polaroidOnPointerDown. rewrite Hs. reflexivity.
  - intros i s Hs Hsel. unfold polaroidOnPointerDown. rewrite Hs. exact Hsel.
Qed.

Lemma polaroidOnPointerDown_only_when_scattered_witness :
  state (toggle initial) = SCATTERED /\
  polaroidOnPointerDown 3 (toggle initial)
  = mkTreeStore SCATTERED (progress (toggle initial)) (Some 3%nat).
Proof.
  split; [reflexivity |].
  apply (proj1 polaroidOnPointerDown_only_when_scattered 3%nat (toggle initial)).
  reflexivity.
Defined.

(** C3, as the code has it.  With the mode SCATTERED and a panel selected,
    a pointer-down on the scene background clears the selection and touches
    nothing else; with the mode TREE_SHAPE the handler leaves the store as
    it is. *)
Theorem groupOnPointerDown_clears_when_scattered :
  (forall s, state s = SCATTERED -> selectedPolaroid s <> None ->
             groupOnPointerDown s = mkTreeStore SCATTERED (progress s) None) /\
  (forall s, state s = TREE_SHAPE -> groupOnPointerDown s = s).
Proof.
  split.
  - intros s Hs Hsel. unfold groupOnPointerDown, clearPolaroid. rewrite Hs.
    destruct (selectedPolaroid s); [reflexivity | contradiction].
  - intros s Hs. unfold groupOnPointerDown. rewrite Hs. reflexivity.
Qed.

Lemma groupOnPointerDown_clears_when_scattered_witness :
  let s := run [KeyDown true; PanelPointerDown 3] initial in
  state s = SCATTERED /\ selectedPolaroid s <> None /\
  groupOnPointerDown s = mkTreeStore SCATTERED (progress s) None.
Proof.
  cbv zeta. split; [reflexivity |]. split; [discriminate |].
  apply (proj1 groupOnPointerDown_clears_when_scattered
               (run [KeyDown true; PanelPointerDown 3] initial)).
  - reflexivity.
  - discriminate.
Defined.

(** C3 as stated fails in TREE_SHAPE mode: select panel 3 while scattered,
    press space, and the background pointer-down keeps the selection. *)
Lemma groupOnPointerDown_keeps_selection_in_tree_shape :
  let s := run [KeyDown true; PanelPointerDown 3; KeyDown true] initial in
  state s = TREE_SHAPE /\
  selectedPolaroid s = Some 3%nat /\
  selectedPolaroid (groupOnPointerDown s) <> None.
Proof.
  cbv zeta. split; [reflexivity |]. split; [reflexivity |].
  simpl. discriminate.
Qed.

(** C2, as the code has it.  The stored progress is in [0,1] in the initial
    store and after every sequence of inputs: [toggle] snaps it to 0 or 1 and
    the wheel listener clamps before it calls [setProgress].  [setProgress]
    itself stores its argument as given, and the drivers ease the stored
    value as it is. *)
Theorem progress_in_range_after_inputs :
  (forall es, 0 <= progress (run es initial) <= 1) /\
  (forall s, 0 <= progress (toggle s) <= 1) /\
  (forall seen deltaY s, 0 <= progress (onWheel seen deltaY s) <= 1) /\
  (forall p s, progress (setProgress p s) = p) /\
  (forall p s, 0 <= p <= 1 -> 0 <= progress (setProgress p s) <= 1) /\
  (forall s, morphFactor s = easeInOutCubic (progress s)).
Proof.
  repeat split; try reflexivity.
  - apply (run_in_range es initial initial_in_range).
  - apply (run_in_range es initial initial_in_range).
  - apply (toggle_in_range s).
  - apply (toggle_in_range s).
  - apply (onWheel_in_range seen deltaY s).
  - apply (onWheel_in_range seen deltaY s).
  - simpl. apply H.
  - simpl. apply H.
Qed.

Lemma progress_in_range_after_inputs_witness :
  0 <= 3 / 10 <= 1 /\ 0 <= progress (setProgress (3 / 10) initial) <= 1.
Proof.
  split; [lra |].
  apply (proj1 (proj2 (proj2 (proj2 (proj2 progress_in_range_after_inputs))))
               (3 / 10) initial).
  lra.
Defined.

(** C2 as stated fails: [setProgress 2] stores 2, which is outside [0,1],
    and the driver's factor for that store is [easeInOutCubic 2 = 5], not
    the value 1 that a clamp before easing would give. *)
Lemma setProgress_stores_out_of_range :
  progress (setProgress 2 initial) = 2 /\
  ~ (0 <= progress (setProgress 2 initial) <= 1) /\
  morphFactor (setProgress 2 initial) = 5.
Proof.
  split; [reflexivity |]. split.
  - simpl. lra.
  - unfold morphFactor. simpl. rewrite easeInOutCubic_high by lra. ring.
Qed.

(** C10.  [easeInOutCubic] is non-decreasing on the whole real line and does
    not clamp: above 1 it exceeds 1 (it is 5 at 2), below 0 it is negative.
    [setProgress] stores its argument as given and the drivers ease the
    stored progress directly, so for a progress above 1 the written position
    lies beyond the tree end point and for a progress below 0 it lies before
    the scatter end point. *)
Theorem easeInOutCubic_does_not_clamp :
  (forall a b, a <= b -> easeInOutCubic a <= easeInOutCubic b) /\
  (forall t, 1 < t -> 1 < easeInOutCubic t) /\
  easeInOutCubic 2 = 5 /\
  (forall t, t < 0 -> easeInOutCubic t < 0) /\
  (forall p s, progress (setProgress p s) = p) /\
  (forall p s, morphFactor (setProgress p s) = easeInOutCubic p) /\
  (forall s time wobble p,
      1 < progress s ->
      1 < morphFactor s /\
      (vx (scatterPosition p) < vx (treePosition p) ->
       vx (treePosition p) < vx (instancedPosition s time wobble p)) /\
      (vx (scatterScale p) < vx (treeScale p) ->
       vx (treeScale p) < vx (instancedScale s p))) /\
  (forall s time wobble p,
      progress s < 0 ->
      morphFactor s < 0 /\
      (vx (scatterPosition p) < vx (treePosition p) ->
       vx (instancedPosition s time wobble p) < vx (scatterPosition p))).
Proof.
  split; [exact easeInOutCubic_mono |].
  split; [exact easeInOutCubic_above |].
  split; [rewrite easeInOutCubic_high by lra; ring |].
  split; [exact easeInOutCubic_below |].
  split; [reflexivity |].
  split; [reflexivity |].
  split.
  - intros s time wobble p Hp.
    pose proof (easeInOutCubic_above _ Hp) as Ht.
    unfold instancedPosition, instancedScale, lerp. fold (morphFactor s) in Ht.
    simpl. repeat split; [exact Ht | intros Hgap; nra | intros Hgap; nra].
  - intros s time wobble p Hp.
    pose proof (easeInOutCubic_below _ Hp) as Ht.
    unfold instancedPosition, lerp. fold (morphFactor s) in Ht.
    simpl. split; [exact Ht | intros Hgap; nra].
Qed.

Lemma easeInOutCubic_does_not_clamp_witness :
  1 < 3 /\ 1 < easeInOutCubic 3.
Proof.
  split; [lra |].
  apply (proj1 (proj2 easeInOutCubic_does_not_clamp) 3). lra.
Defined.

(** ** The frustum sampler's height fraction *)

Section HeightBias.

Lemma heightFraction_pos (raw heightBias : R) :
  0 < raw -> heightFraction raw heightBias = Rpower raw (1 / heightBias).
Proof.
  intros Hraw. unfold heightFraction, JSMath.pow.
  destruct (Req_dec_T raw 0); [lra | reflexivity].
Qed.

Lemma heightFraction_zero (heightBias : R) :
  0 < heightBias -> heightFraction 0 heightBias = 0.
Proof.
  intros Hb. unfold heightFraction, JSMath.pow.
  destruct (Req_dec_T 0 0) as [_ | N]; [| contradiction].
  destruct (Req_dec_T (1 / heightBias) 0) as [E | _]; [| reflexivity].
  exfalso. assert (0 < 1 / heightBias) by (apply Rdiv_lt_0_compat; lra). lra.
Qed.

Lemma Rpower_inv_cancel (x b : R) :
  0 < x -> 0 < b -> Rpower (Rpower x (1 / b)) b = x.
Proof.
  intros Hx Hb. rewrite Rpower_mult.
  replace (1 / b * b) with 1 by (field; lra).
  apply Rpower_1. exact Hx.
Qed.

Lemma Rpower_cancel_inv (x b : R) :
  0 < x -> 0 < b -> Rpower (Rpower x b) (1 / b) = x.
Proof.
  intros Hx Hb. rewrite Rpower_mult.
  replace (b * (1 / b)) with 1 by (field; lra).
  apply Rpower_1. exact Hx.
Qed.

Lemma Rpower_pos (x y : R) : 0 < Rpower x y.
Proof. unfold Rpower. apply exp_pos. Qed.

(** A base in (0,1) grows when its exponent drops below 1. *)
Lemma Rpower_small_exponent (x e : R) :
  0 < x < 1 -> e < 1 -> x < Rpower x e.
Proof.
  intros Hx He.
  apply Rle_lt_trans with (Rpower x 1);
    [rewrite Rpower_1 by lra; lra |].
  unfold Rpower. apply exp_increasing.
  assert (Hln : ln x < 0).
  { rewrite <- ln_1. apply ln_increasing; lra. }
  nra.
Qed.

Lemma Rpower_half_below (b : R) : 1 < b -> Rpower (1 / 2) b < 1 / 2.
Proof.
  intros Hb.
  apply Rlt_le_trans with (Rpower (1 / 2) 1);
    [| rewrite Rpower_1 by lra; lra].
  unfold Rpower. apply exp_increasing.
  assert (Hln : ln (1 / 2) < 0).
  { rewrite <- ln_1. apply ln_increasing; lra. }
  nra.
Qed.

Lemma heightFraction_threshold (raw b : R) :
  1 < b -> 0 <= raw ->
  (heightFraction raw b < 1 / 2 <-> raw < Rpower (1 / 2) b).
Proof.
  intros Hb Hraw.
  destruct (Req_dec_T raw 0) as [E | E].
  - subst raw. rewrite heightFraction_zero by lra.
    pose proof (Rpower_pos (1 / 2) b). split; intros _; lra.
  - assert (Hpos : 0 < raw) by lra.
    rewrite heightFraction_pos by exact Hpos.
    split; intros H.
    + apply Rle_lt_trans with (Rpower (Rpower raw (1 / b)) b);
        [rewrite Rpower_inv_cancel by lra; lra |].
      apply Rlt_Rpower_l; [lra |].
      split; [apply Rpower_pos | exact H].
    + apply Rlt_le_trans with (Rpower (Rpower (1 / 2) b) (1 / b));
        [| rewrite Rpower_cancel_inv by lra; lra].
      apply Rlt_Rpower_l.
      * apply Rdiv_lt_0_compat; lra.
      * split; [exact Hpos | exact H].
Qed.

Lemma randomPointInConeBiased_y
      (p : ConeParams) (surfaceBias heightBias : R) (g : Rng) :
  vy (fst (randomPointInConeBiased p surfaceBias heightBias g))
  = yBase p + heightFraction (g 0%nat) heightBias * height p.
Proof. reflexivity. Qed.

End HeightBias.

(** C1, evaluated on the code.  For a height bias above 1 the exponent
    [1 / heightBias] is below 1, so every draw in (0,1) is moved up:
    [raw < heightFraction raw heightBias].  The draws whose height fraction
    is below one half are exactly those below [(1/2)^heightBias], which is
    less than one half of the unit interval; at the median draw 1/2 the
    height fraction is above 1/2, also for the ornaments' bias 1.2.  The
    sampled point's height is [yBase + heightFraction raw * height] for the
    first draw [raw]. *)
Theorem heightFraction_moves_draws_up (heightBias : R) :
  1 < heightBias ->
  (forall p surfaceBias g,
      vy (fst (randomPointInConeBiased p surfaceBias heightBias g))
      = yBase p + heightFraction (g 0%nat) heightBias * height p) /\
  (forall raw, 0 < raw < 1 -> raw < heightFraction raw heightBias) /\
  (forall raw, 0 <= raw < 1 ->
     (heightFraction raw heightBias < 1 / 2
      <-> raw < Rpower (1 / 2) heightBias)) /\
  Rpower (1 / 2) heightBias < 1 / 2 /\
  1 / 2 < heightFraction (1 / 2) heightBias.
Proof.
  intros Hb.
  assert (He : 1 / heightBias < 1).
  { apply Rmult_lt_reg_r with heightBias; [lra |].
    replace (1 / heightBias * heightBias) with 1 by (field; lra). lra. }
  split; [| split; [| split; [| split]]].
  - intros p surfaceBias g. apply randomPointInConeBiased_y.
  - intros raw Hraw. rewrite heightFraction_pos by lra.
    apply Rpower_small_exponent; assumption.
  - intros raw Hraw. apply heightFraction_threshold; lra.
  - apply Rpower_half_below. exact Hb.
  - rewrite heightFraction_pos by lra.
    apply Rpower_small_exponent; [lra | exact He].
Qed.

Lemma heightFraction_moves_draws_up_witness :
  1 < 12 / 10 /\ 1 / 2 < heightFraction (1 / 2) (12 / 10).
Proof.
  split; [lra |].
  apply (heightFraction_moves_draws_up (12 / 10)). lra.
Defined.

(** ** The point builders *)

Section Builders.

Lemma pushLoop_length {A : Type} (body : nat -> Rand A) (n : nat) :
  forall i g, List.length (fst (pushLoop n i body g)) = n.
Proof.
  induction n as [| n IH]; intros i g; simpl.
  - reflexivity.
  - unfold bind. destruct (body i g) as [p g1].
    specialize (IH (S i) g1).
    destruct (pushLoop n (S i) body g1) as [ps g2].
    simpl in *. now rewrite IH.
Qed.

Lemma pushLoop_Forall {A : Type} (P : A -> Prop) (body : nat -> Rand A) :
  (forall i g, P (fst (body i g))) ->
  forall n i g, Forall P (fst (pushLoop n i body g)).
Proof.
  intros Hbody. induction n as [| n IH]; intros i g; simpl.
  - constructor.
  - unfold bind. pose proof (Hbody i g) as Hp.
    destruct (body i g) as [p g1].
    specialize (IH (S i) g1).
    destruct (pushLoop n (S i) body g1) as [ps g2].
    simpl in *. constructor; assumption.
Qed.

(** The element pushed at position [k] is the body's result at index
    [i + k]. *)
Lemma pushLoop_nth {A : Type} (P : nat -> A -> Prop) (body : nat -> Rand A) :
  (forall i g, P i (fst (body i g))) ->
  forall n i g k, (k < n)%nat ->
    exists a, nth_error (fst (pushLoop n i body g)) k = Some a
              /\ P (i + k)%nat a.
Proof.
  intros Hbody. induction n as [| n IH]; intros i g k Hk; [lia |].
  simpl. unfold bind. pose proof (Hbody i g) as Hp.
  destruct (body i g) as [p g1].
  destruct k as [| k].
  - destruct (pushLoop n (S i) body g1) as [ps g2].
    exists p. simpl in *. rewrite Nat.add_0_r. split; [reflexivity | exact Hp].
  - destruct (IH (S i) g1 k ltac:(lia)) as [a [Ha HP]].
    destruct (pushLoop n (S i) body g1) as [ps g2].
    exists a. simpl in *. split; [exact Ha |].
    replace (i + S k)%nat with (S (i + k)) by lia. exact HP.
Qed.

Definition sharedUniformScale (p : MorphPoint) : Prop :=
  treeScale p = scatterScale p /\
  vx (scatterScale p) = vy (scatterScale p) /\
  vy (scatterScale p) = vz (scatterScale p).

Lemma morphPointAt_scale (opts : MorphOpts) (i : nat) (g : Rng) :
  sharedUniformScale (fst (morphPointAt opts i g)).
Proof.
  unfold morphPointAt, bind, ret.
  destruct (randomPointInSphere _ g) as [sp g1].
  destruct (randomPointInConeBiased _ _ _ g1) as [tp g2].
  destruct (random g2) as [raw g3].
  destruct (randomQuaternion g3) as [q g4].
  simpl. repeat split.
Qed.

End Builders.

(** C7.  For an integer count [0 <= N], [buildMorphPoints N opts] returns
    exactly [N] points whatever the options and the random source, and in
    every one of them [treeScale] equals [scatterScale], a scale with three
    equal components. *)
Theorem buildMorphPoints_count_and_scale
        (N : Z) (opts : MorphOpts) (g : Rng) :
  (0 <= N)%Z ->
  Z.of_nat (List.length (fst (buildMorphPoints N opts g))) = N /\
  Forall (fun p => treeScale p = scatterScale p)
         (fst (buildMorphPoints N opts g)) /\
  Forall sharedUniformScale (fst (buildMorphPoints N opts g)).
Proof.
  intros HN. unfold buildMorphPoints, forPush.
  split; [| split].
  - rewrite pushLoop_length. lia.
  - apply pushLoop_Forall. intros i g'.
    apply (morphPointAt_scale opts i g').
  - apply pushLoop_Forall. intros i g'. apply morphPointAt_scale.
Qed.

Lemma buildMorphPoints_count_and_scale_witness :
  let cone := mkConeParams (105 / 10) (46 / 10) (25 / 100) (- (48 / 10)) in
  let opts := mkMorphOpts 10 cone (mkScaleRange (55 / 100) (11 / 10))
                          (Some (12 / 100)) (Some (12 / 10))
                          (Some (18 / 100)) in
  let g : Rng := fun _ => 1 / 2 in
  (0 <= 85)%Z /\
  Z.of_nat (List.length (fst (buildMorphPoints 85 opts g))) = 85%Z.
Proof.
  cbv zeta. split; [lia |].
  apply (buildMorphPoints_count_and_scale 85). lia.
Defined.

(** ** The panel grid *)

Section Polaroids.

Lemma floor_IZR_div (a b : Z) :
  (0 < b)%Z -> JSMath.floor (IZR a / IZR b) = IZR (a / b).
Proof.
  intros Hb. unfold JSMath.floor. f_equal. symmetry. apply Int_part_spec.
  pose proof (Z.div_mod a b ltac:(lia)) as Hdm.
  pose proof (Z.mod_pos_bound a b Hb) as Hm.
  assert (HbR : 0 < IZR b) by (apply IZR_lt; lia).
  assert (Ha : IZR a = IZR b * IZR (a / b) + IZR (a mod b)).
  { rewrite <- mult_IZR, <- plus_IZR. f_equal. exact Hdm. }
  assert (Hm0 : 0 <= IZR (a mod b)) by (apply IZR_le; lia).
  assert (Hm1 : IZR (a mod b) < IZR b) by (apply IZR_lt; lia).
  replace (IZR a / IZR b) with (IZR (a / b) + IZR (a mod b) / IZR b)
    by (rewrite Ha; field; lra).
  assert (Hf : 0 <= IZR (a mod b) / IZR b < 1).
  { split.
    - unfold Rdiv. apply Rmult_le_pos; [exact Hm0 |].
      left. apply Rinv_0_lt_compat. exact HbR.
    - apply Rmult_lt_reg_r with (IZR b); [exact HbR |].
      replace (IZR (a mod b) / IZR b * IZR b) with (IZR (a mod b))
        by (field; lra).
      lra. }
  lra.
Qed.

Lemma INR_div5 (i : nat) : INR i / 5 = IZR (Z.of_nat i) / IZR 5.
Proof. rewrite INR_IZR_INZ. reflexivity. Qed.

Lemma polaroidLayers_25 : polaroidLayers 25 = 5.
Proof.
  unfold polaroidLayers, JSMath.round, JSMath.floor.
  replace (sqrt 25) with 5.
  - rewrite <- (Int_part_spec (5 + 1 / 2) 5) by lra.
    unfold Rmax. destruct (Rle_dec 1 5); lra.
  - symmetry. replace 25 with (5 * 5) by ring. apply sqrt_square. lra.
Qed.

Lemma polaroidPerLayer_25 : polaroidPerLayer 25 = 5.
Proof.
  unfold polaroidPerLayer, JSMath.ceil. rewrite polaroidLayers_25.
  rewrite <- (Int_part_spec (- (25 / 5)) (-5)) by lra.
  unfold Rmax. destruct (Rle_dec 1 (- -5)); lra.
Qed.

Lemma polaroidLayer_25 (i : nat) : polaroidLayer 25 i = INR (i / 5).
Proof.
  unfold polaroidLayer. rewrite polaroidPerLayer_25, INR_div5.
  rewrite floor_IZR_div by lia.
  rewrite INR_IZR_INZ. f_equal.
  rewrite Nat2Z.inj_div. reflexivity.
Qed.

Lemma polaroidIdx_25 (i : nat) : polaroidIdx 25 i = INR (i mod 5).
Proof.
  unfold polaroidIdx, JSMath.rem. rewrite polaroidPerLayer_25.
  assert (Hq : 0 <= INR i / 5).
  { unfold Rdiv. apply Rmult_le_pos; [apply pos_INR | lra]. }
  destruct (Rle_dec 0 (INR i / 5)) as [_ | N]; [| contradiction].
  rewrite INR_div5, floor_IZR_div by lia.
  rewrite !INR_IZR_INZ, Nat2Z.inj_mod.
  pose proof (Z.div_mod (Z.of_nat i) 5 ltac:(lia)) as Hdm.
  apply (f_equal IZR) in Hdm. rewrite plus_IZR, mult_IZR in Hdm.
  simpl Z.of_nat. lra.
Qed.

Lemma polaroidPointAt_treePosition
      (cone : ConeParams) (count : Z) (i : nat) (g : Rng) :
  treePosition (fst (polaroidPointAt cone count i g))
  = polaroidTreePosition cone count i.
Proof.
  unfold polaroidPointAt, bind, ret.
  destruct (randomPointInSphere 10 g) as [sp g1].
  destruct (randomQuaternion g1) as [q g2].
  reflexivity.
Qed.

End Polaroids.

(** C8.  With 25 panels [layers] and [perLayer] are both 5 and 25 points
    are built; panel [i] sits in layer [i / 5] at ring slot [i mod 5], so
    each of the 5 layers holds each of the 5 slots exactly once; its height
    fraction is [(layer + 0.8) / (layers + 0.6)], which is where its tree
    position is placed; and for [i <= 19] panels [i] and [i + 5] differ in
    height fraction by [1 / (layers + 0.6) = 1 / 5.6]. *)
Theorem buildPolaroidPoints_25_grid (cone : ConeParams) (g : Rng) :
  polaroidLayers 25 = 5 /\
  polaroidPerLayer 25 = 5 /\
  List.length (fst (buildPolaroidPoints cone 25 g)) = 25%nat /\
  (forall i, (i < 25)%nat ->
     polaroidLayer 25 i = INR (i / 5) /\
     polaroidIdx 25 i = INR (i mod 5) /\
     polaroidTY 25 i
     = (polaroidLayer 25 i + 8 / 10) / (polaroidLayers 25 + 6 / 10) /\
     exists p,
       nth_error (fst (buildPolaroidPoints cone 25 g)) i = Some p /\
       vy (treePosition p) = yBase cone + polaroidTY 25 i * height cone) /\
  (forall layer slot, (layer < 5)%nat -> (slot < 5)%nat ->
     exists i, (i < 25)%nat /\
       polaroidLayer 25 i = INR layer /\ polaroidIdx 25 i = INR slot /\
       forall j, (j < 25)%nat ->
         polaroidLayer 25 j = INR layer -> polaroidIdx 25 j = INR slot ->
         j = i) /\
  (forall i, (i <= 19)%nat ->
     polaroidTY 25 (i + 5) - polaroidTY 25 i
     = 1 / (polaroidLayers 25 + 6 / 10) /\
     polaroidTY 25 (i + 5) - polaroidTY 25 i = 1 / (56 / 10)).
Proof.
  split; [exact polaroidLayers_25 |].
  split; [exact polaroidPerLayer_25 |].
  split; [unfold buildPolaroidPoints, forPush; apply pushLoop_length |].
  split; [| split].
  - intros i Hi.
    split; [apply polaroidLayer_25 |].
    split; [apply polaroidIdx_25 |].
    split; [reflexivity |].
    unfold buildPolaroidPoints, forPush.
    destruct (pushLoop_nth
                (fun k p => treePosition p = polaroidTreePosition cone 25 k)
                (polaroidPointAt cone 25)
                (polaroidPointAt_treePosition cone 25)
                (Z.to_nat 25) 0%nat g i) as [p [Hp Htp]].
    { lia. }
    exists p. split; [exact Hp |].
    rewrite Htp. reflexivity.
  - intros layer slot Hl Hs.
    exists (5 * layer + slot)%nat.
    assert (Hdiv : ((5 * layer + slot) / 5 = layer)%nat).
    { rewrite Nat.mul_comm, Nat.div_add_l by lia.
      rewrite Nat.div_small by lia. lia. }
    assert (Hmod : ((5 * layer + slot) mod 5 = slot)%nat).
    { rewrite Nat.add_comm, Nat.mul_comm, Nat.Div0.mod_add.
      apply Nat.mod_small. lia. }
    split; [lia |].
    split; [rewrite polaroidLayer_25, Hdiv; reflexivity |].
    split; [rewrite polaroidIdx_25, Hmod; reflexivity |].
    intros j Hj HL HS.
    rewrite polaroidLayer_25 in HL. rewrite polaroidIdx_25 in HS.
    apply INR_eq in HL. apply INR_eq in HS.
    rewrite (Nat.div_mod_eq j 5). rewrite HL, HS. reflexivity.
  - intros i Hi.
    assert (Hstep : polaroidLayer 25 (i + 5) = polaroidLayer 25 i + 1).
    { rewrite !polaroidLayer_25.
      replace (i + 5)%nat with (i + 1 * 5)%nat by lia.
      rewrite Nat.div_add by lia. rewrite plus_INR. simpl. ring. }
    unfold polaroidTY. rewrite Hstep, polaroidLayers_25.
    split; field.
Qed.

Lemma buildPolaroidPoints_25_grid_witness :
  (7 <= 19)%nat /\ polaroidTY 25 (7 + 5) - polaroidTY 25 7 = 1 / (56 / 10).
Proof.
  split; [lia |].
  apply (proj2 (proj2 (proj2 (proj2 (proj2
           (buildPolaroidPoints_25_grid
              (mkConeParams (105 / 10) (46 / 10) (25 / 100) (- (48 / 10)))
              (fun _ => 1 / 2)))))) 7%nat).
  lia.
Defined.

(** ** Degenerate directions *)

Section Degenerate.

Definition unitX : Vector3 := mkVector3 1 0 0.

Lemma lengthSq_nonneg (v : Vector3) : 0 <= lengthSq v.
Proof. unfold lengthSq. nra. Qed.

Lemma length_pos (v : Vector3) : 0 < lengthSq v -> 0 < length v.
Proof. intros H. unfold length. apply sqrt_lt_R0. exact H. Qed.

(** A vector of non-zero length is divided by that length and comes out
    with length 1. *)
Lemma normalize_lengthSq (v : Vector3) :
  0 < lengthSq v -> lengthSq (normalize v) = 1.
Proof.
  intros H. pose proof (length_pos v H) as Hl.
  unfold normalize, normalizeDivisor, divideScalar, multiplyScalar.
  destruct (Req_dec_T (length v) 0) as [E | _]; [lra |].
  unfold lengthSq at 1. simpl.
  replace (vx v * (1 / length v) * (vx v * (1 / length v))
           + vy v * (1 / length v) * (vy v * (1 / length v))
           + vz v * (1 / length v) * (vz v * (1 / length v)))
    with (lengthSq v / (length v * length v))
    by (unfold lengthSq; field; lra).
  unfold length. rewrite sqrt_sqrt by lra. field. lra.
Qed.

Lemma normalizeDivisor_nonzero (v : Vector3) : normalizeDivisor v <> 0.
Proof.
  unfold normalizeDivisor.
  destruct (Req_dec_T (length v) 0) as [_ | N]; [lra | exact N].
Qed.

Lemma normalize_of_unit (v : Vector3) : lengthSq v = 1 -> normalize v = v.
Proof.
  intros H.
  unfold normalize, normalizeDivisor, divideScalar, multiplyScalar, length.
  rewrite H, sqrt_1.
  destruct (Req_dec_T 1 0) as [E | _]; [lra |].
  destruct v as [x y z]. simpl. f_equal; field.
Qed.

Lemma outwardGuarded_fallback (pos : Vector3) :
  vx pos * vx pos + vz pos * vz pos < 1 / 1000000 ->
  outwardGuarded pos = unitX.
Proof.
  intros H. unfold outwardGuarded, lengthSq. simpl.
  destruct (Rlt_dec _ _) as [_ | N]; [reflexivity |].
  exfalso. apply N. lra.
Qed.

Lemma outwardGuarded_lengthSq (pos : Vector3) :
  1 / 1000000 <= lengthSq (outwardGuarded pos).
Proof.
  unfold outwardGuarded.
  destruct (Rlt_dec _ _) as [_ | N].
  - unfold lengthSq. simpl. lra.
  - lra.
Qed.

Lemma rightGuarded_lengthSq (outward : Vector3) :
  1 / 100000000 <= lengthSq (rightGuarded outward).
Proof.
  unfold rightGuarded.
  destruct (Rlt_dec _ _) as [_ | N].
  - unfold lengthSq. simpl. lra.
  - lra.
Qed.

Lemma lookAt_unitX (y : R) :
  lookAt (mkVector3 0 y 0) (mkVector3 1 y 0) (mkVector3 0 1 0)
  = makeBasis (mkVector3 0 0 1) (mkVector3 0 1 0) (mkVector3 (-1) 0 0).
Proof.
  unfold lookAt.
  assert (Hz : sub (mkVector3 0 y 0) (mkVector3 1 y 0) = mkVector3 (-1) 0 0)
    by (unfold sub; simpl; f_equal; ring).
  rewrite Hz.
  assert (Hzl : lengthSq (mkVector3 (-1) 0 0) = 1)
    by (unfold lengthSq; simpl; ring).
  rewrite Hzl.
  destruct (Req_dec_T 1 0) as [E | _]; [lra |].
  rewrite (normalize_of_unit _ Hzl).
  assert (Hx : cross (mkVector3 0 1 0) (mkVector3 (-1) 0 0) = mkVector3 0 0 1)
    by (unfold cross; simpl; f_equal; ring).
  rewrite Hx.
  assert (Hxl : lengthSq (mkVector3 0 0 1) = 1)
    by (unfold lengthSq; simpl; ring).
  rewrite Hxl.
  destruct (Req_dec_T 1 0) as [E | _]; [lra |].
  rewrite (normalize_of_unit _ Hxl).
  assert (Hy : cross (mkVector3 (-1) 0 0) (mkVector3 0 0 1) = mkVector3 0 1 0)
    by (unfold cross; simpl; f_equal; ring).
  rewrite Hy. reflexivity.
Qed.

(** The orientation that looks along [(1,0,0)]: a quarter turn about the
    vertical axis. *)
Definition quarterTurn : Quaternion :=
  mkQuaternion 0 (- / sqrt 2) 0 (sqrt 2 / 2).

Lemma sqrt2_pos : 0 < sqrt 2.
Proof. apply sqrt_lt_R0. lra. Qed.

Lemma quarterTurn_unit : quatNormSq quarterTurn = 1.
Proof.
  pose proof sqrt2_pos as Hp.
  pose proof (sqrt_sqrt 2 ltac:(lra)) as Hs.
  unfold quatNormSq, quarterTurn. simpl.
  replace (- / sqrt 2 * - / sqrt 2) with (1 / (sqrt 2 * sqrt 2))
    by (field; lra).
  replace (sqrt 2 / 2 * (sqrt 2 / 2)) with (sqrt 2 * sqrt 2 / 4) by field.
  rewrite Hs. field.
Qed.

Lemma outwardQuaternion_of_fallback (pos : Vector3) :
  outwardGuarded pos = unitX ->
  outwardQuaternionFromPosition pos = quarterTurn.
Proof.
  intros Hg. unfold outwardQuaternionFromPosition. rewrite Hg.
  rewrite (normalize_of_unit unitX)
    by (unfold lengthSq, unitX; simpl; ring).
  unfold unitX. simpl vx. simpl vz.
  rewrite lookAt_unitX.
  unfold setFromRotationMatrix, makeBasis, gtb. simpl.
  destruct (Rlt_dec 0 (0 + 1 + 0)) as [_ | N]; [| exfalso; lra].
  pose proof sqrt2_pos as Hp.
  replace (0 + 1 + 0 + 1) with 2 by ring.
  unfold quarterTurn. f_equal; field; lra.
Qed.

End Degenerate.

(** C9.  For a position on the vertical axis, and for any position whose
    horizontal part has squared length below [1e-6], the outward vector is
    replaced by [(1,0,0)] before it is normalised, and
    [outwardQuaternionFromPosition] returns the unit quaternion of that
    direction.  For every position the vector handed to [normalize] has
    non-zero length and leaves it with length 1.  In the panel driver the
    vector [right] is replaced by [(1,0,0)] whenever the cross product
    [outward x worldUp] has squared length below [1e-8], so it too is never
    of zero length when it is normalised.  No call of [normalize] divides
    by zero. *)
Theorem degenerate_directions_fall_back :
  (forall y,
      outwardGuarded (mkVector3 0 y 0) = mkVector3 1 0 0 /\
      outwardQuaternionFromPosition (mkVector3 0 y 0) = quarterTurn) /\
  (forall pos,
      vx pos * vx pos + vz pos * vz pos < 1 / 1000000 ->
      normalize (outwardGuarded pos) = mkVector3 1 0 0 /\
      outwardQuaternionFromPosition pos = quarterTurn) /\
  quatNormSq quarterTurn = 1 /\
  (forall pos,
      0 < lengthSq (outwardGuarded pos) /\
      lengthSq (normalize (outwardGuarded pos)) = 1) /\
  (forall outward,
      lengthSq (cross outward worldUp) < 1 / 100000000 ->
      rightGuarded outward = mkVector3 1 0 0 /\
      normalize (rightGuarded outward) = mkVector3 1 0 0) /\
  (forall outward,
      lengthSq (cross outward worldUp) = 0 ->
      normalize (rightGuarded outward) = mkVector3 1 0 0) /\
  (forall outward,
      0 < lengthSq (rightGuarded outward) /\
      lengthSq (normalize (rightGuarded outward)) = 1) /\
  (forall v, normalizeDivisor v <> 0).
Proof.
  assert (Hunit : normalize unitX = unitX).
  { apply normalize_of_unit. unfold lengthSq, unitX. simpl. ring. }
  assert (Hright : forall outward,
             lengthSq (cross outward worldUp) < 1 / 100000000 ->
             rightGuarded outward = unitX).
  { intros outward H. unfold rightGuarded.
    destruct (Rlt_dec _ _) as [_ | N]; [reflexivity | contradiction]. }
  split; [| split; [| split; [| split; [| split; [| split; [| split]]]]]].
  - intros y.
    assert (Hg : outwardGuarded (mkVector3 0 y 0) = unitX).
    { apply outwardGuarded_fallback. simpl. lra. }
    split; [exact Hg | apply outwardQuaternion_of_fallback; exact Hg].
  - intros pos Hpos.
    pose proof (outwardGuarded_fallback pos Hpos) as Hg.
    split; [rewrite Hg; exact Hunit |].
    apply outwardQuaternion_of_fallback. exact Hg.
  - exact quarterTurn_unit.
  - intros pos. pose proof (outwardGuarded_lengthSq pos) as Hl.
    split; [lra | apply normalize_lengthSq; lra].
  - intros outward H. rewrite (Hright outward H).
    split; [reflexivity | exact Hunit].
  - intros outward H. rewrite (Hright outward) by lra. exact Hunit.
  - intros outward. pose proof (rightGuarded_lengthSq outward) as Hl.
    split; [lra | apply normalize_lengthSq; lra].
  - exact normalizeDivisor_nonzero.
Qed.

Lemma degenerate_directions_fall_back_witness :
  let pos := mkVector3 (1 / 10000) 2 0 in
  vx pos * vx pos + vz pos * vz pos < 1 / 1000000 /\
  outwardQuaternionFromPosition pos = quarterTurn.
Proof.
  cbv zeta. split; [simpl; lra |].
  apply (proj1 (proj2 degenerate_directions_fall_back)
               (mkVector3 (1 / 10000) 2 0)).
  simpl. lra.
Defined.

(** * Further properties of the samplers *)

Section ConeRadius.

Lemma clamp_inside (x : R) : 0 <= x <= 1 -> MathUtils.clamp x 0 1 = x.
Proof.
  intros H. unfold MathUtils.clamp, Rmax, Rmin.
  destruct (Rle_dec 1 x); destruct (Rle_dec 0 _); lra.
Qed.

Lemma clamp_below (x : R) : x <= 0 -> MathUtils.clamp x 0 1 = 0.
Proof.
  intros H. unfold MathUtils.clamp, Rmax, Rmin.
  destruct (Rle_dec 1 x); destruct (Rle_dec 0 _); lra.
Qed.

Lemma clamp_above (x : R) : 1 <= x -> MathUtils.clamp x 0 1 = 1.
Proof.
  intros H. unfold MathUtils.clamp, Rmax, Rmin.
  destruct (Rle_dec 1 x); destruct (Rle_dec 0 _); lra.
Qed.

Lemma clamp_mono (x y : R) :
  x <= y -> MathUtils.clamp x 0 1 <= MathUtils.clamp y 0 1.
Proof.
  intros H. unfold MathUtils.clamp, Rmax, Rmin.
  destruct (Rle_dec 1 x); destruct (Rle_dec 1 y);
    repeat destruct (Rle_dec 0 _); lra.
Qed.

Lemma div_le_0 (a h : R) : 0 < h -> a <= 0 -> a / h <= 0.
Proof.
  intros Hh Ha. unfold Rdiv.
  assert (0 < / h) by (apply Rinv_0_lt_compat; exact Hh). nra.
Qed.

Lemma div_ge_0 (a h : R) : 0 < h -> 0 <= a -> 0 <= a / h.
Proof.
  intros Hh Ha. unfold Rdiv.
  assert (0 < / h) by (apply Rinv_0_lt_compat; exact Hh). nra.
Qed.

Lemma div_ge_1 (a h : R) : 0 < h -> h <= a -> 1 <= a / h.
Proof.
  intros Hh Ha. replace 1 with (h / h) by (field; lra).
  unfold Rdiv. assert (0 < / h) by (apply Rinv_0_lt_compat; exact Hh). nra.
Qed.

Lemma div_le_1 (a h : R) : 0 < h -> a <= h -> a / h <= 1.
Proof.
  intros Hh Ha. replace 1 with (h / h) by (field; lra).
  unfold Rdiv. assert (0 < / h) by (apply Rinv_0_lt_compat; exact Hh). nra.
Qed.

Lemma div_mono (a b h : R) : 0 < h -> a <= b -> a / h <= b / h.
Proof.
  intros Hh Hab. unfold Rdiv.
  assert (0 < / h) by (apply Rinv_0_lt_compat; exact Hh). nra.
Qed.

End ConeRadius.

(** X1.  For a frustum of positive height the radius is [radiusBase] at and
    below [yBase], [radiusTop] at and above [yBase + height], and the linear
    blend of the two in between. *)
Theorem coneRadiusAtY_ends_and_clamps (p : ConeParams) :
  0 < height p ->
  coneRadiusAtY (yBase p) p = radiusBase p /\
  coneRadiusAtY (yBase p + height p) p = radiusTop p /\
  (forall y, y <= yBase p -> coneRadiusAtY y p = radiusBase p) /\
  (forall y, yBase p + height p <= y -> coneRadiusAtY y p = radiusTop p) /\
  (forall y, yBase p <= y <= yBase p + height p ->
     coneRadiusAtY y p
     = radiusBase p
       + (radiusTop p - radiusBase p) * ((y - yBase p) / height p)).
Proof.
  intros Hh.
  assert (Hlow : forall y, y <= yBase p -> coneRadiusAtY y p = radiusBase p).
  { intros y Hy. unfold coneRadiusAtY, MathUtils.lerp.
    rewrite clamp_below by (apply div_le_0; lra). ring. }
  assert (Hhigh : forall y, yBase p + height p <= y ->
                            coneRadiusAtY y p = radiusTop p).
  { intros y Hy. unfold coneRadiusAtY, MathUtils.lerp.
    rewrite clamp_above by (apply div_ge_1; lra). ring. }
  split; [apply Hlow; lra |].
  split; [apply Hhigh; lra |].
  split; [exact Hlow |].
  split; [exact Hhigh |].
  intros y Hy. unfold coneRadiusAtY, MathUtils.lerp.
  rewrite clamp_inside; [ring |].
  split; [apply div_ge_0; lra | apply div_le_1; lra].
Qed.

Lemma coneRadiusAtY_ends_and_clamps_witness :
  let cone := mkConeParams (105 / 10) (46 / 10) (25 / 100) (- (48 / 10)) in
  0 < height cone /\ coneRadiusAtY (yBase cone) cone = radiusBase cone.
Proof.
  cbv zeta. split; [simpl; lra |].
  apply (proj1 (coneRadiusAtY_ends_and_clamps
                  (mkConeParams (105 / 10) (46 / 10) (25 / 100) (- (48 / 10)))
                  ltac:(simpl; lra))).
Defined.

(** X2.  For a frustum of positive height the radius at any height lies
    between the two end radii, and when the top is not wider than the base
    the radius never grows with height. *)
Theorem coneRadiusAtY_bounded_and_narrowing (p : ConeParams) :
  0 < height p ->
  (forall y, Rmin (radiusBase p) (radiusTop p) <= coneRadiusAtY y p
             <= Rmax (radiusBase p) (radiusTop p)) /\
  (radiusTop p <= radiusBase p ->
   forall y1 y2, y1 <= y2 -> coneRadiusAtY y2 p <= coneRadiusAtY y1 p).
Proof.
  intros Hh. split.
  - intros y. unfold coneRadiusAtY, MathUtils.lerp.
    pose proof (clamp_unit ((y - yBase p) / height p)) as Hc.
    set (tt := MathUtils.clamp _ 0 1) in *.
    unfold Rmin, Rmax. destruct (Rle_dec (radiusBase p) (radiusTop p)); nra.
  - intros Hr y1 y2 Hy. unfold coneRadiusAtY, MathUtils.lerp.
    assert (Hm : MathUtils.clamp ((y1 - yBase p) / height p) 0 1
                 <= MathUtils.clamp ((y2 - yBase p) / height p) 0 1).
    { apply clamp_mono. apply div_mono; lra. }
    nra.
Qed.

Lemma coneRadiusAtY_bounded_and_narrowing_witness :
  let cone := mkConeParams (105 / 10) (46 / 10) (25 / 100) (- (48 / 10)) in
  0 < height cone /\
  Rmin (radiusBase cone) (radiusTop cone) <= coneRadiusAtY 0 cone
  <= Rmax (radiusBase cone) (radiusTop cone).
Proof.
  cbv zeta. split; [simpl; lra |].
  apply (proj1 (coneRadiusAtY_bounded_and_narrowing
                  (mkConeParams (105 / 10) (46 / 10) (25 / 100) (- (48 / 10)))
                  ltac:(simpl; lra)) 0).
Defined.

Section PowerRange.

Lemma Rpower_below_1 (x e : R) : 0 < x < 1 -> 0 < e -> Rpower x e < 1.
Proof.
  intros Hx He. rewrite <- exp_0. unfold Rpower. apply exp_increasing.
  assert (Hln : ln x < 0) by (rewrite <- ln_1; apply ln_increasing; lra).
  nra.
Qed.

Lemma pow_unit (x e : R) :
  0 <= x < 1 -> 0 <= e -> 0 <= JSMath.pow x e <= 1.
Proof.
  intros Hx He. unfold JSMath.pow.
  destruct (Req_dec_T x 0) as [_ | Nx].
  - destruct (Req_dec_T e 0); lra.
  - pose proof (Rpower_pos x e) as Hp.
    destruct (Req_dec_T e 0) as [E | E].
    + subst e. rewrite Rpower_O by lra. lra.
    + pose proof (Rpower_below_1 x e ltac:(lra) ltac:(lra)). lra.
Qed.

Lemma pow_unit_strict (x e : R) :
  0 <= x < 1 -> 0 < e -> 0 <= JSMath.pow x e < 1.
Proof.
  intros Hx He. unfold JSMath.pow.
  destruct (Req_dec_T x 0) as [_ | Nx].
  - destruct (Req_dec_T e 0); lra.
  - pose proof (Rpower_pos x e) as Hp.
    pose proof (Rpower_below_1 x e ltac:(lra) He). lra.
Qed.

Lemma inv_bias_pos (b : R) : 0 < b -> 0 < 1 / b.
Proof. intros Hb. apply Rdiv_lt_0_compat; lra. Qed.

(** A base in (0,1) shrinks when its exponent rises above 1. *)
Lemma Rpower_large_exponent (x e : R) :
  0 < x < 1 -> 1 < e -> Rpower x e < x.
Proof.
  intros Hx He.
  apply Rlt_le_trans with (Rpower x 1); [| rewrite Rpower_1 by lra; lra].
  unfold Rpower. apply exp_increasing.
  assert (Hln : ln x < 0) by (rewrite <- ln_1; apply ln_increasing; lra).
  nra.
Qed.

Lemma Rpower_2 (x : R) : 0 < x -> Rpower x 2 = x * x.
Proof.
  intros Hx. replace 2 with (INR 2) by (simpl; ring).
  rewrite Rpower_pow by exact Hx. ring.
Qed.

End PowerRange.

(** X3.  For a positive height bias every draw in [0,1) gives a height
    fraction in [0,1).  A bias below 1 moves every draw in (0,1) down, so
    the points gather at the base; the needles' bias 0.5 squares the
    draw. *)
Theorem heightFraction_range_and_low_bias (heightBias : R) :
  0 < heightBias ->
  (forall raw, 0 <= raw < 1 -> 0 <= heightFraction raw heightBias < 1) /\
  (heightBias < 1 ->
   forall raw, 0 < raw < 1 -> heightFraction raw heightBias < raw) /\
  (forall raw, 0 <= raw -> heightFraction raw (1 / 2) = raw * raw).
Proof.
  intros Hb. split; [| split].
  - intros raw Hraw. unfold heightFraction.
    apply pow_unit_strict; [exact Hraw | apply inv_bias_pos; exact Hb].
  - intros Hb1 raw Hraw. rewrite heightFraction_pos by lra.
    apply Rpower_large_exponent; [exact Hraw |].
    apply Rmult_lt_reg_r with heightBias; [exact Hb |].
    replace (1 / heightBias * heightBias) with 1 by (field; lra). lra.
  - intros raw Hraw. destruct (Req_dec_T raw 0) as [E | E].
    + subst raw. rewrite heightFraction_zero by lra. ring.
    + rewrite heightFraction_pos by lra.
      replace (1 / (1 / 2)) with 2 by field.
      apply Rpower_2. lra.
Qed.

Lemma heightFraction_range_and_low_bias_witness :
  0 < 1 / 2 /\ 0 <= heightFraction (1 / 4) (1 / 2) < 1.
Proof.
  split; [lra |].
  apply (proj1 (heightFraction_range_and_low_bias (1 / 2) ltac:(lra)) (1 / 4)).
  lra.
Defined.

Section RandomPoints.

Lemma cbrt_cube (w : R) : 0 <= w -> JSMath.cbrt w ^ 3 = w.
Proof.
  intros Hw. unfold JSMath.cbrt.
  destruct (Req_dec_T w 0) as [E | E].
  - subst w. ring.
  - assert (Hp : 0 < w) by lra.
    rewrite <- (Rpower_pow 3) by apply Rpower_pos.
    rewrite Rpower_mult.
    replace (1 / 3 * INR 3) with 1 by (simpl; field).
    apply Rpower_1. exact Hp.
Qed.

Lemma cbrt_unit (w : R) : 0 <= w < 1 -> 0 <= JSMath.cbrt w < 1.
Proof.
  intros Hw. unfold JSMath.cbrt.
  destruct (Req_dec_T w 0) as [E | E]; [lra |].
  pose proof (Rpower_pos w (1 / 3)).
  pose proof (Rpower_below_1 w (1 / 3) ltac:(lra) ltac:(lra)). lra.
Qed.

Lemma sin_cos_sq (x : R) : sin x * sin x + cos x * cos x = 1.
Proof. pose proof (sin2_cos2 x) as H. unfold Rsqr in H. exact H. Qed.

Lemma randomPointInSphere_lengthSq (radius : R) (g : Rng) :
  lengthSq (fst (randomPointInSphere radius g))
  = (radius * JSMath.cbrt (g 2%nat)) * (radius * JSMath.cbrt (g 2%nat)).
Proof.
  unfold randomPointInSphere, bind, ret, random, lengthSq. simpl.
  set (r := radius * JSMath.cbrt (g 2%nat)).
  set (phi := acos (2 * g 1%nat - 1)).
  set (theta := 2 * PI * g 0%nat).
  pose proof (sin_cos_sq phi) as Hphi.
  pose proof (sin_cos_sq theta) as Htheta.
  replace (r * sin phi * cos theta * (r * sin phi * cos theta)
           + r * cos phi * (r * cos phi)
           + r * sin phi * sin theta * (r * sin phi * sin theta))
    with (r * r * (sin phi * sin phi
                   * (sin theta * sin theta + cos theta * cos theta)
                   + cos phi * cos phi)) by ring.
  rewrite Htheta, Rmult_1_r, Hphi. ring.
Qed.

Lemma randomPointInSphere_rest (radius : R) (g : Rng) :
  snd (randomPointInSphere radius g) = shift 3 g.
Proof. reflexivity. Qed.

Lemma randomPointInConeBiased_rest
      (p : ConeParams) (surfaceBias heightBias : R) (g : Rng) :
  snd (randomPointInConeBiased p surfaceBias heightBias g) = shift 3 g.
Proof. reflexivity. Qed.

Lemma randomQuaternion_rest (g : Rng) :
  snd (randomQuaternion g) = shift 3 g.
Proof. reflexivity. Qed.

Lemma unitRange_shift (k : nat) (g : Rng) :
  unitRange g -> unitRange (shift k g).
Proof. intros H n. apply H. Qed.

Lemma randomPointInConeBiased_radial
      (p : ConeParams) (surfaceBias heightBias : R) (g : Rng) :
  let pt := fst (randomPointInConeBiased p surfaceBias heightBias g) in
  vx pt * vx pt + vz pt * vz pt
  = (coneRadiusAtY (vy pt) p * JSMath.pow (g 1%nat) surfaceBias)
    * (coneRadiusAtY (vy pt) p * JSMath.pow (g 1%nat) surfaceBias).
Proof.
  unfold randomPointInConeBiased, bind, ret, random. simpl.
  set (r := coneRadiusAtY _ p * JSMath.pow (g 1%nat) surfaceBias).
  set (ang := g 2%nat * PI * 2).
  pose proof (sin_cos_sq ang) as Hang.
  replace (r * cos ang * (r * cos ang) + r * sin ang * (r * sin ang))
    with (r * r * (sin ang * sin ang + cos ang * cos ang)) by ring.
  rewrite Hang. ring.
Qed.

End RandomPoints.

(** X4.  [randomPointInSphere radius] takes three draws and returns a point
    whose distance from the origin is [radius * cbrt w] for the third draw
    [w]; for draws in [0,1) the point is inside the sphere of that radius.
    [cbrt] is the cube root: its cube gives the draw back. *)
Theorem randomPointInSphere_inside (radius : R) (g : Rng) :
  unitRange g ->
  lengthSq (fst (randomPointInSphere radius g))
  = (radius * JSMath.cbrt (g 2%nat)) * (radius * JSMath.cbrt (g 2%nat)) /\
  lengthSq (fst (randomPointInSphere radius g)) <= radius * radius /\
  JSMath.cbrt (g 2%nat) ^ 3 = g 2%nat /\
  snd (randomPointInSphere radius g) = shift 3 g.
Proof.
  intros Hg.
  pose proof (cbrt_unit (g 2%nat) (Hg 2%nat)) as Hc.
  split; [apply randomPointInSphere_lengthSq |].
  split; [| split; [apply cbrt_cube; apply Hg | reflexivity]].
  rewrite randomPointInSphere_lengthSq.
  set (c := JSMath.cbrt (g 2%nat)) in *.
  assert (Hcc : c * c <= 1) by nra.
  assert (Hrr : 0 <= radius * radius) by nra.
  replace (radius * c * (radius * c)) with (radius * radius * (c * c)) by ring.
  nra.
Qed.

Lemma randomPointInSphere_inside_witness :
  unitRange (fun _ => 1 / 2) /\
  lengthSq (fst (randomPointInSphere 10 (fun _ => 1 / 2))) <= 10 * 10.
Proof.
  assert (H : unitRange (fun _ => 1 / 2)) by (intros n; lra).
  split; [exact H |].
  apply (proj1 (proj2 (randomPointInSphere_inside 10 (fun _ => 1 / 2) H))).
Defined.

(** X5.  With draws in [0,1), a positive height bias, a non-negative
    surface bias and a positive frustum height, the point returned by
    [randomPointInConeBiased] has its height in [yBase, yBase + height) and
    its distance from the axis at most the frustum radius at that height:
    it is inside the frustum. *)
Theorem randomPointInConeBiased_inside
        (p : ConeParams) (surfaceBias heightBias : R) (g : Rng) :
  unitRange g -> 0 < heightBias -> 0 <= surfaceBias -> 0 < height p ->
  let pt := fst (randomPointInConeBiased p surfaceBias heightBias g) in
  yBase p <= vy pt < yBase p + height p /\
  vx pt * vx pt + vz pt * vz pt
  <= coneRadiusAtY (vy pt) p * coneRadiusAtY (vy pt) p.
Proof.
  intros Hg Hb Hs Hh pt. split.
  - unfold pt. rewrite randomPointInConeBiased_y.
    pose proof (pow_unit_strict (g 0%nat) (1 / heightBias) (Hg 0%nat)
                                (inv_bias_pos _ Hb)) as Ht.
    fold (heightFraction (g 0%nat) heightBias) in Ht. nra.
  - unfold pt. rewrite randomPointInConeBiased_radial.
    pose proof (pow_unit (g 1%nat) surfaceBias (Hg 1%nat) Hs) as Hp.
    set (rMax := coneRadiusAtY _ p).
    set (c := JSMath.pow (g 1%nat) surfaceBias) in *.
    assert (Hcc : c * c <= 1) by nra.
    assert (Hrr : 0 <= rMax * rMax) by nra.
    replace (rMax * c * (rMax * c)) with (rMax * rMax * (c * c)) by ring.
    nra.
Qed.

Lemma randomPointInConeBiased_inside_witness :
  let cone := mkConeParams (105 / 10) (46 / 10) (25 / 100) (- (48 / 10)) in
  let g : Rng := fun _ => 1 / 2 in
  unitRange g /\
  yBase cone
  <= vy (fst (randomPointInConeBiased cone (12 / 100) (12 / 10) g))
  < yBase cone + height cone.
Proof.
  cbv zeta.
  assert (H : unitRange (fun _ => 1 / 2)) by (intros n; lra).
  split; [exact H |].
  apply (proj1 (randomPointInConeBiased_inside
                  (mkConeParams (105 / 10) (46 / 10) (25 / 100) (- (48 / 10)))
                  (12 / 100) (12 / 10) (fun _ => 1 / 2) H
                  ltac:(lra) ltac:(lra) ltac:(simpl; lra))).
Defined.

Section EulerOrientation.

Lemma setFromEuler_unit_norm (x y z : R) :
  quatNormSq (setFromEuler x y z) = 1.
Proof.
  unfold quatNormSq, setFromEuler. simpl.
  pose proof (sin_cos_sq (x / 2)) as H1.
  pose proof (sin_cos_sq (y / 2)) as H2.
  pose proof (sin_cos_sq (z / 2)) as H3.
  set (s1 := sin (x / 2)) in *. set (c1 := cos (x / 2)) in *.
  set (s2 := sin (y / 2)) in *. set (c2 := cos (y / 2)) in *.
  set (s3 := sin (z / 2)) in *. set (c3 := cos (z / 2)) in *.
  replace ((s1 * c2 * c3 + c1 * s2 * s3) * (s1 * c2 * c3 + c1 * s2 * s3)
           + (c1 * s2 * c3 - s1 * c2 * s3) * (c1 * s2 * c3 - s1 * c2 * s3)
           + (c1 * c2 * s3 + s1 * s2 * c3) * (c1 * c2 * s3 + s1 * s2 * c3)
           + (c1 * c2 * c3 - s1 * s2 * s3) * (c1 * c2 * c3 - s1 * s2 * s3))
    with ((s1 * s1 + c1 * c1) * (s2 * s2 + c2 * c2) * (s3 * s3 + c3 * c3))
    by ring.
  rewrite H1, H2, H3. ring.
Qed.

Lemma randomQuaternion_unit_norm (g : Rng) :
  quatNormSq (fst (randomQuaternion g)) = 1.
Proof.
  unfold randomQuaternion, bind, ret, random. simpl.
  apply setFromEuler_unit_norm.
Qed.

End EulerOrientation.

(** X6.  [setFromEuler] gives a unit quaternion for all three angles, and so
    does [randomQuaternion] for every random source; it takes three
    draws. *)
Theorem randomQuaternion_unit :
  (forall x y z, quatNormSq (setFromEuler x y z) = 1) /\
  (forall g, quatNormSq (fst (randomQuaternion g)) = 1) /\
  (forall g, snd (randomQuaternion g) = shift 3 g).
Proof.
  split; [exact setFromEuler_unit_norm |].
  split; [exact randomQuaternion_unit_norm | reflexivity].
Qed.

Section OutwardOrientation.

(** The normalised outward direction is horizontal and of length 1. *)
Lemma outward_direction (pos : Vector3) :
  exists a c, normalize (outwardGuarded pos) = mkVector3 a 0 c
              /\ a * a + c * c = 1.
Proof.
  pose proof (outwardGuarded_lengthSq pos) as Hl.
  pose proof (normalize_lengthSq (outwardGuarded pos) ltac:(lra)) as Hn.
  assert (Hy : vy (outwardGuarded pos) = 0).
  { unfold outwardGuarded. destruct (Rlt_dec _ _); reflexivity. }
  exists (vx (normalize (outwardGuarded pos))),
         (vz (normalize (outwardGuarded pos))).
  assert (Hy' : vy (normalize (outwardGuarded pos)) = 0).
  { unfold normalize, divideScalar, multiplyScalar. simpl.
    rewrite Hy. ring. }
  split.
  - destruct (normalize (outwardGuarded pos)) as [a b c]. simpl in *.
    subst b. reflexivity.
  - unfold lengthSq in Hn. rewrite Hy' in Hn. lra.
Qed.

Lemma lookAt_horizontal (a c y : R) :
  a * a + c * c = 1 ->
  lookAt (mkVector3 0 y 0) (mkVector3 a y c) (mkVector3 0 1 0)
  = makeBasis (mkVector3 (- c) 0 a) (mkVector3 0 1 0)
              (mkVector3 (- a) 0 (- c)).
Proof.
  intros Hu. unfold lookAt.
  assert (Hz : sub (mkVector3 0 y 0) (mkVector3 a y c)
               = mkVector3 (- a) 0 (- c))
    by (unfold sub; simpl; f_equal; ring).
  rewrite Hz.
  assert (Hzl : lengthSq (mkVector3 (- a) 0 (- c)) = 1)
    by (unfold lengthSq; simpl; lra).
  rewrite Hzl.
  destruct (Req_dec_T 1 0) as [E | _]; [lra |].
  rewrite (normalize_of_unit _ Hzl).
  assert (Hx : cross (mkVector3 0 1 0) (mkVector3 (- a) 0 (- c))
               = mkVector3 (- c) 0 a)
    by (unfold cross; simpl; f_equal; ring).
  rewrite Hx.
  assert (Hxl : lengthSq (mkVector3 (- c) 0 a) = 1)
    by (unfold lengthSq; simpl; lra).
  rewrite Hxl.
  destruct (Req_dec_T 1 0) as [E | _]; [lra |].
  rewrite (normalize_of_unit _ Hxl).
  assert (Hy : cross (mkVector3 (- a) 0 (- c)) (mkVector3 (- c) 0 a)
               = mkVector3 0 1 0)
    by (unfold cross; simpl; f_equal; lra).
  rewrite Hy. reflexivity.
Qed.

Lemma horizontal_basis_quaternion (a c : R) :
  a * a + c * c = 1 ->
  let q := setFromRotationMatrix
             (makeBasis (mkVector3 (- c) 0 a) (mkVector3 0 1 0)
                        (mkVector3 (- a) 0 (- c))) in
  quatNormSq q = 1 /\ qx q = 0 /\ qz q = 0.
Proof.
  intros Hu. cbv zeta.
  unfold setFromRotationMatrix, makeBasis, gtb. simpl.
  destruct (Rlt_dec 0 (- c + 1 + - c)) as [Ht | Ht].
  - (* trace > 0 *)
    assert (Hpos : 0 < - c + 1 + - c + 1) by lra.
    pose proof (sqrt_lt_R0 _ Hpos) as Hs.
    pose proof (sqrt_sqrt (- c + 1 + - c + 1) ltac:(lra)) as Hss.
    set (w := sqrt (- c + 1 + - c + 1)) in *.
    unfold quatNormSq. simpl.
    split; [| split; ring].
    replace ((0 - 0) * (1 / 2 / w) * ((0 - 0) * (1 / 2 / w))
             + (- a - a) * (1 / 2 / w) * ((- a - a) * (1 / 2 / w))
             + (0 - 0) * (1 / 2 / w) * ((0 - 0) * (1 / 2 / w))
             + 1 / 4 / (1 / 2 / w) * (1 / 4 / (1 / 2 / w)))
      with (a * a / (w * w) + (w * w) / 4) by (field; lra).
    rewrite Hss.
    replace (a * a) with ((1 - c) * (1 + c)) by lra.
    field. lra.
  - destruct (Rlt_dec 1 (- c)) as [H1 | H1]; [exfalso; lra |].
    simpl.
    destruct (Rlt_dec (- c) 1) as [H2 | H2]; [| exfalso; lra].
    assert (Hpos : 0 < 1 + 1 - - c - - c) by lra.
    pose proof (sqrt_lt_R0 _ Hpos) as Hs.
    pose proof (sqrt_sqrt (1 + 1 - - c - - c) ltac:(lra)) as Hss.
    set (w := sqrt (1 + 1 - - c - - c)) in *.
    unfold quatNormSq. simpl.
    split; [| split; field; lra].
    replace ((0 + 0) / (2 * w) * ((0 + 0) / (2 * w))
             + 1 / 4 * (2 * w) * (1 / 4 * (2 * w))
             + (0 + 0) / (2 * w) * ((0 + 0) / (2 * w))
             + (- a - a) / (2 * w) * ((- a - a) / (2 * w)))
      with (a * a / (w * w) + (w * w) / 4) by (field; lra).
    rewrite Hss.
    replace (a * a) with ((1 - c) * (1 + c)) by lra.
    field. lra.
Qed.

Lemma outwardQuaternionFromPosition_unit_norm (pos : Vector3) :
  quatNormSq (outwardQuaternionFromPosition pos) = 1 /\
  qx (outwardQuaternionFromPosition pos) = 0 /\
  qz (outwardQuaternionFromPosition pos) = 0.
Proof.
  destruct (outward_direction pos) as [a [c [Ho Hu]]].
  unfold outwardQuaternionFromPosition. rewrite Ho. simpl vx. simpl vz.
  rewrite (lookAt_horizontal a c (vy pos) Hu).
  apply horizontal_basis_quaternion. exact Hu.
Qed.

End OutwardOrientation.

(** X7.  For every position, on the axis or off it,
    [outwardQuaternionFromPosition] returns a unit quaternion whose x and z
    parts are 0: a rotation about the vertical axis. *)
Theorem outwardQuaternionFromPosition_unit (pos : Vector3) :
  quatNormSq (outwardQuaternionFromPosition pos) = 1 /\
  qx (outwardQuaternionFromPosition pos) = 0 /\
  qz (outwardQuaternionFromPosition pos) = 0.
Proof. exact (outwardQuaternionFromPosition_unit_norm pos). Qed.

(** * Further properties of the point builders *)

Section BuilderLoops.

(** What is left of the random source after the loop, when every turn
    takes [c] draws. *)
Lemma pushLoop_rest {A : Type} (body : nat -> Rand A) (c : nat) :
  (forall i g k, snd (body i g) k = g (c + k)%nat) ->
  forall n i g k, snd (pushLoop n i body g) k = g (c * n + k)%nat.
Proof.
  intros Hbody. induction n as [| n IH]; intros i g k; simpl.
  - rewrite Nat.mul_0_r. reflexivity.
  - unfold bind. pose proof (Hbody i g) as Hb.
    destruct (body i g) as [p g1]. simpl in Hb.
    specialize (IH (S i) g1 k).
    destruct (pushLoop n (S i) body g1) as [ps g2]. simpl in *.
    rewrite IH, Hb. f_equal. lia.
Qed.

(** A property of the elements that holds as long as the random source
    keeps an invariant. *)
Lemma pushLoop_Forall_inv {A : Type} (I : Rng -> Prop) (P : A -> Prop)
      (body : nat -> Rand A) :
  (forall i g, I g -> P (fst (body i g)) /\ I (snd (body i g))) ->
  forall n i g, I g -> Forall P (fst (pushLoop n i body g)).
Proof.
  intros Hbody. induction n as [| n IH]; intros i g Hg; simpl.
  - constructor.
  - unfold bind. destruct (Hbody i g Hg) as [Hp Hg1].
    destruct (body i g) as [p g1]. simpl in Hp, Hg1.
    specialize (IH (S i) g1 Hg1).
    destruct (pushLoop n (S i) body g1) as [ps g2].
    simpl in *. constructor; assumption.
Qed.

Lemma forPush_nonpositive {A : Type} (count : Z) (body : nat -> Rand A)
      (g : Rng) :
  (count <= 0)%Z -> forPush count body g = ([], g).
Proof.
  intros Hc. unfold forPush.
  replace (Z.to_nat count) with 0%nat by lia. reflexivity.
Qed.

Lemma morphPointAt_rest (opts : MorphOpts) (i : nat) (g : Rng) :
  snd (morphPointAt opts i g) = shift 10 g.
Proof. reflexivity. Qed.

Lemma morphPointAt_fields (opts : MorphOpts) (i : nat) (g : Rng) :
  let p := fst (morphPointAt opts i g) in
  seed p = (INR i + 1) * 99991 /\
  treeQuaternion p = outwardQuaternionFromPosition (treePosition p) /\
  scatterPosition p = fst (randomPointInSphere (scatterRadius opts) g) /\
  scatterQuaternion p = fst (randomQuaternion (shift 7 g)) /\
  scatterScale p
  = multiplyScalar (mkVector3 1 1 1)
      (MathUtils.lerp (min (baseScale opts)) (max (baseScale opts))
                      (g 6%nat)).
Proof. cbv zeta. repeat split. Qed.

Lemma morphPointAt_tree_height (opts : MorphOpts) (i : nat) (g : Rng) :
  vy (treePosition (fst (morphPointAt opts i g)))
  = vy (fst (randomPointInConeBiased
               (cone opts)
               (withDefault (surfaceBias opts) (25 / 100))
               (withDefault (heightBias opts) (18 / 10))
               (shift 3 g))).
Proof.
  unfold morphPointAt, bind, ret. simpl.
  destruct (Req_dec_T _ 0); [reflexivity |].
  destruct (gtb _ _); [| reflexivity].
  unfold shift. simpl. ring.
Qed.

Lemma lerp_scalar_between (a b t : R) :
  a <= b -> 0 <= t < 1 -> a <= MathUtils.lerp a b t <= b.
Proof. intros Hab Ht. unfold MathUtils.lerp. nra. Qed.

End BuilderLoops.

(** X8.  In the list built by [buildMorphPoints] the point at position [k]
    carries the seed [(k + 1) * 99991] and a tree orientation that is the
    outward orientation of its own, possibly offset, tree position.  Each
    point takes ten draws from the random source, so the source left over is
    the given one advanced by ten times the count; a count of zero or less
    gives the empty list and takes none. *)
Theorem buildMorphPoints_elements (N : Z) (opts : MorphOpts) (g : Rng) :
  (forall k, (k < Z.to_nat N)%nat ->
     exists p,
       nth_error (fst (buildMorphPoints N opts g)) k = Some p /\
       seed p = (INR k + 1) * 99991 /\
       treeQuaternion p = outwardQuaternionFromPosition (treePosition p)) /\
  (forall n, snd (buildMorphPoints N opts g) n
             = g (10 * Z.to_nat N + n)%nat) /\
  ((N <= 0)%Z -> buildMorphPoints N opts g = ([], g)).
Proof.
  split; [| split].
  - intros k Hk. unfold buildMorphPoints, forPush.
    destruct (pushLoop_nth
                (fun i p =>
                   seed p = (INR i + 1) * 99991 /\
                   treeQuaternion p
                   = outwardQuaternionFromPosition (treePosition p))
                (morphPointAt opts)) with (n := Z.to_nat N) (i := 0%nat)
                                          (g := g) (k := k)
      as [p [Hp [Hs Hq]]].
    + intros i g'.
      destruct (morphPointAt_fields opts i g') as [H1 [H2 _]].
      split; [exact H1 | exact H2].
    + exact Hk.
    + exists p. simpl in Hs.
      split; [exact Hp |]. split; [exact Hs | exact Hq].
  - intros n. unfold buildMorphPoints, forPush.
    apply (pushLoop_rest (morphPointAt opts) 10).
    intros i g' k. rewrite morphPointAt_rest. reflexivity.
  - intros HN. unfold buildMorphPoints. apply forPush_nonpositive. exact HN.
Qed.

Lemma buildMorphPoints_elements_witness :
  let opts :=
    mkMorphOpts 10 (mkConeParams (105 / 10) (46 / 10) (25 / 100) (- (48 / 10)))
                (mkScaleRange (55 / 100) (95 / 100))
                (Some (12 / 100)) (Some (17 / 10)) (Some (22 / 100)) in
  let g : Rng := fun _ => 1 / 2 in
  (0 <= 0)%Z /\ buildMorphPoints 0 opts g = ([], g).
Proof.
  cbv zeta. split; [lia |].
  apply (proj2 (proj2 (buildMorphPoints_elements
                         0
                         (mkMorphOpts 10
                            (mkConeParams (105 / 10) (46 / 10) (25 / 100)
                                          (- (48 / 10)))
                            (mkScaleRange (55 / 100) (95 / 100))
                            (Some (12 / 100)) (Some (17 / 10))
                            (Some (22 / 100)))
                         (fun _ => 1 / 2)))).
  lia.
Defined.

Section BuilderBounds.

Lemma randomPointInSphere_bound (radius : R) (g : Rng) :
  unitRange g ->
  lengthSq (fst (randomPointInSphere radius g)) <= radius * radius.
Proof.
  intros Hg. pose proof (cbrt_unit (g 2%nat) (Hg 2%nat)) as Hc.
  rewrite randomPointInSphere_lengthSq.
  set (c := JSMath.cbrt (g 2%nat)) in *.
  assert (Hcc : c * c <= 1) by nra.
  assert (Hrr : 0 <= radius * radius) by nra.
  replace (radius * c * (radius * c)) with (radius * radius * (c * c)) by ring.
  nra.
Qed.

Lemma randomPointInConeBiased_height
      (p : ConeParams) (surfaceBias heightBias : R) (g : Rng) :
  unitRange g -> 0 < heightBias -> 0 < height p ->
  yBase p <= vy (fst (randomPointInConeBiased p surfaceBias heightBias g))
  < yBase p + height p.
Proof.
  intros Hg Hb Hh. rewrite randomPointInConeBiased_y.
  pose proof (pow_unit_strict (g 0%nat) (1 / heightBias) (Hg 0%nat)
                              (inv_bias_pos _ Hb)) as Ht.
  fold (heightFraction (g 0%nat) heightBias) in Ht. nra.
Qed.

Lemma lengthSq_horizontal (x z : R) :
  lengthSq (mkVector3 x 0 z) = x * x + z * z.
Proof. unfold lengthSq. simpl. ring. Qed.

End BuilderBounds.

(** X9.  With draws in [0,1), a scale range [min <= max], a positive height
    bias, a non-negative surface bias and a positive frustum height, every
    point of [buildMorphPoints]
    has its scatter position inside the sphere of radius [scatterRadius],
    its scale between [min] and [max], its tree position at a height in
    [yBase, yBase + height), and unit quaternions for both orientations. *)
Theorem buildMorphPoints_within_bounds (N : Z) (opts : MorphOpts) (g : Rng) :
  unitRange g ->
  min (baseScale opts) <= max (baseScale opts) ->
  0 < withDefault (heightBias opts) (18 / 10) ->
  0 <= withDefault (surfaceBias opts) (25 / 100) ->
  0 < height (cone opts) ->
  Forall (fun p =>
            lengthSq (scatterPosition p)
            <= scatterRadius opts * scatterRadius opts /\
            min (baseScale opts) <= vx (scatterScale p)
            <= max (baseScale opts) /\
            yBase (cone opts) <= vy (treePosition p)
            < yBase (cone opts) + height (cone opts) /\
            quatNormSq (scatterQuaternion p) = 1 /\
            quatNormSq (treeQuaternion p) = 1)
         (fst (buildMorphPoints N opts g)).
Proof.
  intros Hg Hmm Hb _ Hh. unfold buildMorphPoints, forPush.
  apply (pushLoop_Forall_inv unitRange); [| exact Hg].
  intros i g' Hg'. split.
  - destruct (morphPointAt_fields opts i g') as [_ [Hq [Hsp [Hsq Hsc]]]].
    split; [| split; [| split; [| split]]].
    + rewrite Hsp. apply randomPointInSphere_bound. exact Hg'.
    + rewrite Hsc. simpl.
      pose proof (lerp_scalar_between _ _ (g' 6%nat) Hmm (Hg' 6%nat)).
      lra.
    + rewrite morphPointAt_tree_height.
      apply randomPointInConeBiased_height;
        [apply unitRange_shift; exact Hg' | exact Hb | exact Hh].
    + rewrite Hsq. apply randomQuaternion_unit_norm.
    + rewrite Hq. apply outwardQuaternionFromPosition_unit_norm.
  - rewrite morphPointAt_rest. apply unitRange_shift. exact Hg'.
Qed.

Lemma buildMorphPoints_within_bounds_witness :
  let cone := mkConeParams (105 / 10) (46 / 10) (25 / 100) (- (48 / 10)) in
  let opts := mkMorphOpts (115 / 10) cone (mkScaleRange (35 / 100) (75 / 100))
                          (Some (18 / 100)) (Some (1 / 2)) None in
  let g : Rng := fun _ => 1 / 2 in
  unitRange g /\
  Forall (fun p =>
            lengthSq (scatterPosition p)
            <= scatterRadius opts * scatterRadius opts /\
            min (baseScale opts) <= vx (scatterScale p)
            <= max (baseScale opts) /\
            yBase (Sampling.cone opts) <= vy (treePosition p)
            < yBase (Sampling.cone opts) + height (Sampling.cone opts) /\
            quatNormSq (scatterQuaternion p) = 1 /\
            quatNormSq (treeQuaternion p) = 1)
         (fst (buildMorphPoints 3 opts g)).
Proof.
  cbv zeta.
  assert (H : unitRange (fun _ => 1 / 2)) by (intros n; lra).
  split; [exact H |].
  apply (buildMorphPoints_within_bounds 3); simpl; try lra. exact H.
Defined.

(** X10.  The radial offset of [buildMorphPoints] leaves the sampled tree
    position alone when the offset is 0 or the position is within [1e-3] of
    the axis; otherwise it keeps the height and scales the horizontal part
    by [1 + offset / L], where [L] is the distance from the axis, so that
    the squared distance becomes [(L + offset)^2]. *)
Theorem morphPointAt_radial_offset (opts : MorphOpts) (i : nat) (g : Rng) :
  let tp0 := fst (randomPointInConeBiased
                    (cone opts)
                    (withDefault (surfaceBias opts) (25 / 100))
                    (withDefault (heightBias opts) (18 / 10))
                    (shift 3 g)) in
  let tp := treePosition (fst (morphPointAt opts i g)) in
  let offset := withDefault (extraTreeRadialOffset opts) 0 in
  let L := sqrt (vx tp0 * vx tp0 + vz tp0 * vz tp0) in
  (offset = 0 \/ vx tp0 * vx tp0 + vz tp0 * vz tp0 <= 1 / 1000000 ->
   tp = tp0) /\
  (offset <> 0 -> 1 / 1000000 < vx tp0 * vx tp0 + vz tp0 * vz tp0 ->
   vy tp = vy tp0 /\
   vx tp = vx tp0 * (1 + offset / L) /\
   vz tp = vz tp0 * (1 + offset / L) /\
   vx tp * vx tp + vz tp * vz tp = (L + offset) * (L + offset)).
Proof.
  cbv zeta.
  set (tp0 := fst (randomPointInConeBiased _ _ _ (shift 3 g))).
  set (offset := withDefault (extraTreeRadialOffset opts) 0).
  set (L := sqrt (vx tp0 * vx tp0 + vz tp0 * vz tp0)).
  assert (Htp : treePosition (fst (morphPointAt opts i g))
                = if Req_dec_T offset 0 then tp0
                  else if gtb (lengthSq (mkVector3 (vx tp0) 0 (vz tp0)))
                              (1 / 1000000)
                       then add tp0
                                (multiplyScalar
                                   (normalize (mkVector3 (vx tp0) 0 (vz tp0)))
                                   offset)
                       else tp0) by reflexivity.
  rewrite Htp. clear Htp. clearbody tp0 offset.
  rewrite lengthSq_horizontal. unfold gtb.
  split.
  - intros [H0 | Hsmall].
    + destruct (Req_dec_T offset 0); [reflexivity | contradiction].
    + destruct (Req_dec_T offset 0); [reflexivity |].
      destruct (Rlt_dec _ _) as [Hlt | _]; [exfalso; lra | reflexivity].
  - intros Hoff Hbig.
    destruct (Req_dec_T offset 0) as [E | _]; [contradiction |].
    destruct (Rlt_dec _ _) as [_ | N]; [| exfalso; lra].
    assert (HL : 0 < L) by (apply sqrt_lt_R0; lra).
    assert (HLL : L * L = vx tp0 * vx tp0 + vz tp0 * vz tp0)
      by (apply sqrt_sqrt; lra).
    assert (Hdiv : normalizeDivisor (mkVector3 (vx tp0) 0 (vz tp0)) = L).
    { unfold normalizeDivisor, length. rewrite lengthSq_horizontal.
      fold L. destruct (Req_dec_T L 0); [lra | reflexivity]. }
    unfold normalize, divideScalar, multiplyScalar, add. rewrite Hdiv. simpl.
    split; [ring |]. split; [field; lra |]. split; [field; lra |].
    replace ((vx tp0 + vx tp0 * (1 / L) * offset)
             * (vx tp0 + vx tp0 * (1 / L) * offset)
             + (vz tp0 + vz tp0 * (1 / L) * offset)
               * (vz tp0 + vz tp0 * (1 / L) * offset))
      with ((vx tp0 * vx tp0 + vz tp0 * vz tp0)
            * ((1 + offset / L) * (1 + offset / L))) by (field; lra).
    rewrite <- HLL. field. lra.
Qed.

Lemma morphPointAt_radial_offset_witness :
  let opts :=
    mkMorphOpts 10 (mkConeParams (105 / 10) (46 / 10) (25 / 100) (- (48 / 10)))
                (mkScaleRange (55 / 100) (11 / 10))
                (Some (12 / 100)) (Some (12 / 10)) None in
  let g : Rng := fun _ => 1 / 2 in
  withDefault (extraTreeRadialOffset opts) 0 = 0 /\
  treePosition (fst (morphPointAt opts 0 g))
  = fst (randomPointInConeBiased
           (cone opts) (withDefault (surfaceBias opts) (25 / 100))
           (withDefault (heightBias opts) (18 / 10)) (shift 3 g)).
Proof.
  cbv zeta. split; [reflexivity |].
  apply (proj1 (morphPointAt_radial_offset
                  (mkMorphOpts 10
                     (mkConeParams (105 / 10) (46 / 10) (25 / 100)
                                   (- (48 / 10)))
                     (mkScaleRange (55 / 100) (11 / 10))
                     (Some (12 / 100)) (Some (12 / 10)) None)
                  0 (fun _ => 1 / 2))).
  left. reflexivity.
Defined.

Section PolaroidPlacement.

Lemma floor_le (x : R) : JSMath.floor x <= x.
Proof. unfold JSMath.floor. pose proof (base_Int_part x). lra. Qed.

Lemma floor_gt (x : R) : x - 1 < JSMath.floor x.
Proof. unfold JSMath.floor. pose proof (base_Int_part x). lra. Qed.

Lemma ceil_ge (x : R) : x <= JSMath.ceil x.
Proof. unfold JSMath.ceil. pose proof (base_Int_part (- x)). lra. Qed.

Lemma Rmax_1_IZR (k : Z) : Rmax 1 (IZR k) = IZR (Z.max 1 k).
Proof.
  unfold Rmax. destruct (Rle_dec 1 (IZR k)) as [H | H].
  - apply le_IZR in H. f_equal. lia.
  - assert (Hk : (k < 1)%Z).
    { destruct (Z_lt_le_dec k 1) as [L | L]; [exact L |].
      exfalso. apply H. apply IZR_le. exact L. }
    f_equal. lia.
Qed.

Lemma polaroidLayers_integer (count : Z) :
  exists L : Z, (1 <= L)%Z /\ polaroidLayers count = IZR L.
Proof.
  unfold polaroidLayers, JSMath.round, JSMath.floor.
  rewrite Rmax_1_IZR. eexists. split; [| reflexivity]. lia.
Qed.

Lemma polaroidPerLayer_covers (count : Z) :
  1 <= polaroidPerLayer count /\
  IZR count <= polaroidLayers count * polaroidPerLayer count.
Proof.
  destruct (polaroidLayers_integer count) as [L [HL EL]].
  assert (HLR : 1 <= IZR L) by (apply IZR_le; exact HL).
  unfold polaroidPerLayer. rewrite EL.
  pose proof (ceil_ge (IZR count / IZR L)) as Hc.
  pose proof (Rmax_l 1 (JSMath.ceil (IZR count / IZR L))) as H1.
  pose proof (Rmax_r 1 (JSMath.ceil (IZR count / IZR L))) as H2.
  set (per := Rmax 1 _) in *.
  split; [exact H1 |].
  assert (Hq : IZR count / IZR L <= per) by lra.
  apply (Rmult_le_compat_l (IZR L)) in Hq; [| lra].
  replace (IZR L * (IZR count / IZR L)) with (IZR count) in Hq
    by (field; lra).
  exact Hq.
Qed.

(** The layer of a panel is an integer from 0 to [layers - 1]. *)
Lemma polaroidLayer_range (count : Z) (i : nat) :
  (Z.of_nat i < count)%Z ->
  0 <= polaroidLayer count i <= polaroidLayers count - 1.
Proof.
  intros Hi.
  destruct (polaroidLayers_integer count) as [L [HL EL]].
  destruct (polaroidPerLayer_covers count) as [Hp1 Hcov].
  rewrite EL in *.
  assert (Hii : 0 <= INR i) by apply pos_INR.
  assert (Hic : INR i < IZR count)
    by (rewrite INR_IZR_INZ; apply IZR_lt; exact Hi).
  assert (Hper : 0 < polaroidPerLayer count) by lra.
  assert (Hx0 : 0 <= INR i / polaroidPerLayer count)
    by (apply div_ge_0; assumption).
  assert (HxL : INR i / polaroidPerLayer count < IZR L).
  { apply Rmult_lt_reg_r with (polaroidPerLayer count); [exact Hper |].
    replace (INR i / polaroidPerLayer count * polaroidPerLayer count)
      with (INR i) by (field; lra).
    lra. }
  unfold polaroidLayer.
  pose proof (floor_le (INR i / polaroidPerLayer count)) as Hfl.
  pose proof (floor_gt (INR i / polaroidPerLayer count)) as Hfg.
  unfold JSMath.floor in *.
  set (m := Int_part (INR i / polaroidPerLayer count)) in *.
  assert (Hm0 : (0 <= m)%Z).
  { assert (H : (-1 < m)%Z) by (apply lt_IZR; lra). lia. }
  assert (HmL : (m <= L - 1)%Z).
  { assert (H : (m < L)%Z) by (apply lt_IZR; lra). lia. }
  apply IZR_le in Hm0. apply IZR_le in HmL.
  rewrite minus_IZR in HmL. lra.
Qed.

Lemma polaroidTY_inside (count : Z) (i : nat) :
  (Z.of_nat i < count)%Z -> 0 < polaroidTY count i < 1.
Proof.
  intros Hi.
  destruct (polaroidLayers_integer count) as [L [HL EL]].
  pose proof (polaroidLayer_range count i Hi) as Hr.
  assert (HLR : 1 <= IZR L) by (apply IZR_le; exact HL).
  unfold polaroidTY. rewrite EL in *.
  assert (Hden : 0 < IZR L + 6 / 10) by lra.
  split.
  - apply Rdiv_lt_0_compat; lra.
  - apply Rmult_lt_reg_r with (IZR L + 6 / 10); [exact Hden |].
    replace ((polaroidLayer count i + 8 / 10) / (IZR L + 6 / 10)
             * (IZR L + 6 / 10))
      with (polaroidLayer count i + 8 / 10) by (field; lra).
    lra.
Qed.

Lemma polaroidPointAt_fields
      (cone : ConeParams) (count : Z) (i : nat) (g : Rng) :
  let p := fst (polaroidPointAt cone count i g) in
  seed p = (INR i + 1) * 31337 /\
  treePosition p = polaroidTreePosition cone count i /\
  treeQuaternion p = outwardQuaternionFromPosition (treePosition p) /\
  scatterPosition p = fst (randomPointInSphere 10 g) /\
  scatterQuaternion p = fst (randomQuaternion (shift 3 g)) /\
  scatterScale p = mkVector3 (9 / 10) (9 / 10) (9 / 10) /\
  treeScale p = mkVector3 (9 / 10) (9 / 10) (9 / 10).
Proof. cbv zeta. repeat split. Qed.

Lemma polaroidPointAt_rest
      (cone : ConeParams) (count : Z) (i : nat) (g : Rng) :
  snd (polaroidPointAt cone count i g) = shift 6 g.
Proof. reflexivity. Qed.

End PolaroidPlacement.

(** X11.  For every count, [buildPolaroidPoints] returns [count] points
    (none for a count of zero or less).  The point at position [k] has the
    seed [(k + 1) * 31337], the fixed scale 0.9 in both states, the grid's
    tree position and the outward orientation of that position; its scatter
    position is within distance 10 of the origin when the draws are in
    [0,1).  Each point takes six draws. *)
Theorem buildPolaroidPoints_elements
        (cone : ConeParams) (count : Z) (g : Rng) :
  List.length (fst (buildPolaroidPoints cone count g)) = Z.to_nat count /\
  (forall k, (k < Z.to_nat count)%nat ->
     exists p,
       nth_error (fst (buildPolaroidPoints cone count g)) k = Some p /\
       seed p = (INR k + 1) * 31337 /\
       treePosition p = polaroidTreePosition cone count k /\
       treeQuaternion p = outwardQuaternionFromPosition (treePosition p) /\
       scatterScale p = mkVector3 (9 / 10) (9 / 10) (9 / 10) /\
       treeScale p = scatterScale p) /\
  (unitRange g ->
   Forall (fun p => lengthSq (scatterPosition p) <= 10 * 10)
          (fst (buildPolaroidPoints cone count g))) /\
  (forall n, snd (buildPolaroidPoints cone count g) n
             = g (6 * Z.to_nat count + n)%nat) /\
  ((count <= 0)%Z -> buildPolaroidPoints cone count g = ([], g)).
Proof.
  unfold buildPolaroidPoints, forPush.
  split; [apply pushLoop_length |].
  split; [| split; [| split]].
  - intros k Hk.
    destruct (pushLoop_nth
                (fun i p =>
                   seed p = (INR i + 1) * 31337 /\
                   treePosition p = polaroidTreePosition cone count i /\
                   treeQuaternion p
                   = outwardQuaternionFromPosition (treePosition p) /\
                   scatterScale p = mkVector3 (9 / 10) (9 / 10) (9 / 10) /\
                   treeScale p = scatterScale p)
                (polaroidPointAt cone count)) with (n := Z.to_nat count)
                                                   (i := 0%nat) (g := g)
                                                   (k := k)
      as [p [Hp Hf]].
    + intros i g'.
      destruct (polaroidPointAt_fields cone count i g')
        as [H1 [H2 [H3 [_ [_ [H6 H7]]]]]].
      split; [exact H1 |]. split; [exact H2 |]. split; [exact H3 |].
      split; [exact H6 |]. rewrite H6, H7. reflexivity.
    + exact Hk.
    + exists p. split; [exact Hp | exact Hf].
  - intros Hg. apply (pushLoop_Forall_inv unitRange); [| exact Hg].
    intros i g' Hg'. split.
    + destruct (polaroidPointAt_fields cone count i g')
        as [_ [_ [_ [H4 _]]]].
      rewrite H4. apply randomPointInSphere_bound. exact Hg'.
    + rewrite polaroidPointAt_rest. apply unitRange_shift. exact Hg'.
  - intros n. apply (pushLoop_rest (polaroidPointAt cone count) 6).
    intros i g' k. rewrite polaroidPointAt_rest. reflexivity.
  - intros Hc. apply forPush_nonpositive. exact Hc.
Qed.

Lemma buildPolaroidPoints_elements_witness :
  let cone := mkConeParams (105 / 10) (46 / 10) (25 / 100) (- (48 / 10)) in
  let g : Rng := fun _ => 1 / 2 in
  unitRange g /\
  Forall (fun p => lengthSq (scatterPosition p) <= 10 * 10)
         (fst (buildPolaroidPoints cone 20 g)).
Proof.
  cbv zeta.
  assert (H : unitRange (fun _ => 1 / 2)) by (intros n; lra).
  split; [exact H |].
  apply (proj1 (proj2 (proj2 (buildPolaroidPoints_elements
                                (mkConeParams (105 / 10) (46 / 10) (25 / 100)
                                              (- (48 / 10)))
                                20 (fun _ => 1 / 2))))).
  exact H.
Defined.

(** X12.  For every count and every panel index below it, the layer is
    between 0 and [layers - 1], so the height fraction lies strictly
    between 0 and 1: on a frustum of positive height the panel sits strictly
    between base and top.  Its distance from the axis is 1.08 times the
    frustum radius at its height. *)
Theorem polaroidTreePosition_on_the_tree
        (cone : ConeParams) (count : Z) (i : nat) :
  (Z.of_nat i < count)%Z ->
  0 <= polaroidLayer count i <= polaroidLayers count - 1 /\
  0 < polaroidTY count i < 1 /\
  (0 < height cone ->
   yBase cone < vy (polaroidTreePosition cone count i)
   < yBase cone + height cone) /\
  (0 < height cone ->
   vx (polaroidTreePosition cone count i)
   * vx (polaroidTreePosition cone count i)
   + vz (polaroidTreePosition cone count i)
     * vz (polaroidTreePosition cone count i)
   = (coneRadiusAtY (vy (polaroidTreePosition cone count i)) cone
      * (108 / 100))
     * (coneRadiusAtY (vy (polaroidTreePosition cone count i)) cone
        * (108 / 100))).
Proof.
  intros Hi.
  pose proof (polaroidTY_inside count i Hi) as Ht.
  split; [apply polaroidLayer_range; exact Hi |].
  split; [exact Ht |].
  split.
  - intros Hh. unfold polaroidTreePosition. simpl. nra.
  - intros _. unfold polaroidTreePosition. simpl.
    set (r := coneRadiusAtY _ cone * (108 / 100)).
    set (ang := _ + _ * (45 / 100)).
    pose proof (sin_cos_sq ang) as Hang.
    replace (r * cos ang * (r * cos ang) + r * sin ang * (r * sin ang))
      with (r * r * (sin ang * sin ang + cos ang * cos ang)) by ring.
    rewrite Hang. ring.
Qed.

Lemma polaroidTreePosition_on_the_tree_witness :
  (Z.of_nat 7 < 20)%Z /\ 0 < polaroidTY 20 7 < 1.
Proof.
  split; [lia |].
  apply (proj1 (proj2 (polaroidTreePosition_on_the_tree
                         (mkConeParams (105 / 10) (46 / 10) (25 / 100)
                                       (- (48 / 10)))
                         20 7 ltac:(lia)))).
Defined.

(** * Further properties of the store and the input handlers *)

Section ModeAndSelection.

(** The mode says on which side of one half the progress is. *)
Definition modeAgrees (s : TreeStore) : Prop :=
  state s = TREE_SHAPE <-> 1 / 2 < progress s.

Lemma initial_agrees : modeAgrees initial.
Proof. unfold modeAgrees. simpl. split; [intros _; lra | reflexivity]. Qed.

Lemma toggle_agrees (s : TreeStore) : modeAgrees (toggle s).
Proof.
  unfold modeAgrees, toggle. destruct (state s); simpl.
  - split; [intros _; lra | reflexivity].
  - split; [discriminate | intros H; lra].
Qed.

Lemma onWheel_agrees (seen deltaY : R) (s : TreeStore) :
  modeAgrees (onWheel seen deltaY s).
Proof.
  unfold modeAgrees, onWheel, gtb. simpl.
  destruct (Rlt_dec (1 / 2) _) as [H | H].
  - split; [intros _; exact H | reflexivity].
  - split; [discriminate | intros H'; contradiction].
Qed.

Lemma handle_agrees (e : Input) (s : TreeStore) :
  modeAgrees s -> modeAgrees (handle e s).
Proof.
  intros Hs. destruct e as [isSpace | deltaY | i | ]; simpl.
  - destruct isSpace; simpl; [apply toggle_agrees | exact Hs].
  - apply onWheel_agrees.
  - unfold polaroidOnPointerDown, modeAgrees in *.
    destruct (state s) eqn:E; simpl; try rewrite E; exact Hs.
  - unfold groupOnPointerDown, modeAgrees in *.
    destruct (state s) eqn:E; destruct (selectedPolaroid s);
      simpl; try rewrite E; exact Hs.
Qed.

Lemma run_app (es1 es2 : list Input) (s : TreeStore) :
  run (es1 ++ es2) s = run es2 (run es1 s).
Proof. unfold run. apply fold_left_app. Qed.

Lemma handle_selection_source (e : Input) (s : TreeStore) (i : nat) :
  selectedPolaroid (handle e s) = Some i ->
  selectedPolaroid s = Some i \/ e = PanelPointerDown i.
Proof.
  destruct e as [isSpace | deltaY | j | ]; simpl.
  - destruct isSpace; simpl; intros H; left; exact H.
  - intros H. left. exact H.
  - unfold polaroidOnPointerDown. destruct (state s); simpl.
    + intros H. right. congruence.
    + intros H. left. exact H.
  - unfold groupOnPointerDown.
    destruct (state s); destruct (selectedPolaroid s) eqn:Es; simpl;
      intros H; try discriminate; left; congruence.
Qed.

Lemma run_selection_source (es : list Input) :
  forall s i, selectedPolaroid (run es s) = Some i ->
              selectedPolaroid s = Some i \/ In (PanelPointerDown i) es.
Proof.
  induction es as [| e es IH]; intros s i H; simpl in *.
  - left. exact H.
  - destruct (IH (handle e s) i H) as [H1 | H1].
    + destruct (handle_selection_source e s i H1) as [H2 | H2].
      * left. exact H2.
      * right. left. exact H2.
    + right. right. exact H1.
Qed.

End ModeAndSelection.

(** X13.  After every sequence of inputs from the initial store the mode is
    TREE_SHAPE exactly when the progress is above one half, and SCATTERED
    exactly when it is at most one half. *)
Theorem mode_agrees_with_progress (es : list Input) :
  (state (run es initial) = TREE_SHAPE <-> 1 / 2 < progress (run es initial)) /\
  (state (run es initial) = SCATTERED <-> progress (run es initial) <= 1 / 2).
Proof.
  assert (H : forall es' s, modeAgrees s -> modeAgrees (run es' s)).
  { induction es' as [| e es' IH]; intros s Hs; simpl; [exact Hs |].
    apply IH. apply handle_agrees. exact Hs. }
  specialize (H es initial initial_agrees). unfold modeAgrees in H.
  split; [exact H |].
  destruct (state (run es initial)).
  - split; [intros _ | reflexivity].
    destruct (Rle_dec (progress (run es initial)) (1 / 2)) as [L | L];
      [exact L |].
    assert (Hgt : 1 / 2 < progress (run es initial)) by lra.
    apply H in Hgt. discriminate.
  - split; [discriminate |].
    intros Hle. assert (Hgt : 1 / 2 < progress (run es initial))
      by (apply H; reflexivity).
    lra.
Qed.

Lemma mode_agrees_with_progress_witness :
  state (run [KeyDown true; Wheel (-500)] initial) = TREE_SHAPE /\
  1 / 2 < progress (run [KeyDown true; Wheel (-500)] initial).
Proof.
  assert (H : state (run [KeyDown true; Wheel (-500)] initial) = TREE_SHAPE).
  { unfold run. simpl. unfold onWheel, gtb, MathUtils.clamp, Rmax, Rmin.
    simpl.
    destruct (Rle_dec 1 _); destruct (Rle_dec 0 _);
      destruct (Rlt_dec (1 / 2) _); try reflexivity; exfalso; lra. }
  split; [exact H |].
  apply (proj1 (proj1 (mode_agrees_with_progress
                         [KeyDown true; Wheel (-500)]))).
  exact H.
Defined.

(** X14.  The wheel listener, for a held progress in [0,1]: a zero delta
    keeps the progress, a negative delta (scroll up) never lowers it and a
    positive one never raises it, the change is at most [0.0012 * |deltaY|],
    a delta of at least [progress / 0.0012] lands on 0 in SCATTERED mode and
    one of at most [- (1 - progress) / 0.0012] lands on 1 in TREE_SHAPE mode;
    the selection is not touched. *)
Theorem onWheel_moves_progress (seen deltaY : R) (s : TreeStore) :
  0 <= seen <= 1 ->
  (deltaY = 0 -> progress (onWheel seen deltaY s) = seen) /\
  (deltaY <= 0 -> seen <= progress (onWheel seen deltaY s)) /\
  (0 <= deltaY -> progress (onWheel seen deltaY s) <= seen) /\
  Rabs (progress (onWheel seen deltaY s) - seen)
  <= 12 / 10000 * Rabs deltaY /\
  (seen <= deltaY * (12 / 10000) ->
   progress (onWheel seen deltaY s) = 0 /\
   state (onWheel seen deltaY s) = SCATTERED) /\
  (deltaY * (12 / 10000) <= seen - 1 ->
   progress (onWheel seen deltaY s) = 1 /\
   state (onWheel seen deltaY s) = TREE_SHAPE) /\
  selectedPolaroid (onWheel seen deltaY s) = selectedPolaroid s.
Proof.
  intros Hseen.
  assert (Hp : progress (onWheel seen deltaY s)
               = MathUtils.clamp (seen - deltaY * (12 / 10000)) 0 1)
    by reflexivity.
  assert (Hst : state (onWheel seen deltaY s)
                = if gtb (MathUtils.clamp (seen - deltaY * (12 / 10000)) 0 1)
                         (1 / 2)
                  then TREE_SHAPE else SCATTERED) by reflexivity.
  rewrite Hp, Hst. clear Hp Hst.
  unfold gtb, MathUtils.clamp, Rmax, Rmin, Rabs.
  destruct (Rle_dec 1 (seen - deltaY * (12 / 10000)));
    destruct (Rle_dec 0 _);
    destruct (Rlt_dec (1 / 2) _);
    destruct (Rcase_abs deltaY);
    destruct (Rcase_abs _);
    repeat split; intros; try reflexivity; try lra.
Qed.

Lemma onWheel_moves_progress_witness :
  0 <= 1 <= 1 /\ progress (onWheel 1 1000 initial) = 0.
Proof.
  split; [lra |].
  apply (proj1 (proj2 (proj2 (proj2 (proj2
           (onWheel_moves_progress 1 1000 initial ltac:(lra))))))).
  lra.
Defined.

(** X15.  [toggle] undoes itself exactly on the stores whose progress is
    already snapped to their mode (1 in TREE_SHAPE, 0 in SCATTERED); on every
    store two toggles restore mode and selection and snap the progress, so a
    third toggle equals the first. *)
Theorem toggle_twice (s : TreeStore) :
  state (toggle (toggle s)) = state s /\
  selectedPolaroid (toggle (toggle s)) = selectedPolaroid s /\
  progress (toggle (toggle s))
  = match state s with TREE_SHAPE => 1 | SCATTERED => 0 end /\
  (toggle (toggle s) = s
   <-> progress s = match state s with TREE_SHAPE => 1 | SCATTERED => 0 end) /\
  toggle (toggle (toggle s)) = toggle s.
Proof.
  destruct s as [m p sel]. destruct m; unfold toggle; simpl.
  - repeat split; try reflexivity.
    + intros H. injection H as H. symmetry. exact H.
    + intros H. subst p. reflexivity.
  - repeat split; try reflexivity.
    + intros H. injection H as H. symmetry. exact H.
    + intros H. subst p. reflexivity.
Qed.

Lemma toggle_twice_witness :
  progress initial = 1 /\ toggle (toggle initial) = initial.
Proof.
  split; [reflexivity |].
  apply (proj2 (proj1 (proj2 (proj2 (proj2 (toggle_twice initial)))))).
  reflexivity.
Defined.

(** X16.  The selection changes only by pointer inputs: key and wheel
    inputs keep it, and in TREE_SHAPE mode no input changes it.  After any
    sequence of inputs from the initial store a selected panel [i] is one
    that received a pointer-down, and a panel is sent to the focus branch
    only if it is the selected one and the mode is SCATTERED. *)
Theorem selection_changes_only_by_pointer :
  (forall isSpace s,
      selectedPolaroid (handle (KeyDown isSpace) s) = selectedPolaroid s) /\
  (forall deltaY s,
      selectedPolaroid (handle (Wheel deltaY) s) = selectedPolaroid s) /\
  (forall e s, state s = TREE_SHAPE ->
               selectedPolaroid (handle e s) = selectedPolaroid s) /\
  (forall es i, selectedPolaroid (run es initial) = Some i ->
                In (PanelPointerDown i) es) /\
  (forall s i, isFocused s i = true
               <-> state s = SCATTERED /\ selectedPolaroid s = Some i) /\
  (forall es i, isFocused (run es initial) i = true ->
                In (PanelPointerDown i) es).
Proof.
  assert (Hfocus : forall s i, isFocused s i = true
                     <-> state s = SCATTERED /\ selectedPolaroid s = Some i).
  { intros s i. unfold isFocused.
    destruct (state s); destruct (selectedPolaroid s) as [j |]; simpl.
    - rewrite Nat.eqb_eq. split.
      + intros E. subst j. split; reflexivity.
      + intros [_ E]. congruence.
    - split; [discriminate | intros [_ E]; discriminate].
    - split; [discriminate | intros [E _]; discriminate].
    - split; [discriminate | intros [E _]; discriminate]. }
  assert (Hsrc : forall es i, selectedPolaroid (run es initial) = Some i ->
                              In (PanelPointerDown i) es).
  { intros es i H.
    destruct (run_selection_source es initial i H) as [H0 | H0];
      [discriminate | exact H0]. }
  split; [intros isSpace s; destruct isSpace; reflexivity |].
  split; [intros deltaY s; reflexivity |].
  split.
  { intros e s Hs. destruct e as [isSpace | deltaY | j | ]; simpl.
    - destruct isSpace; reflexivity.
    - reflexivity.
    - unfold polaroidOnPointerDown. rewrite Hs. reflexivity.
    - unfold groupOnPointerDown. rewrite Hs. reflexivity. }
  split; [exact Hsrc |].
  split; [exact Hfocus |].
  intros es i H. apply Hsrc. apply Hfocus in H. apply H.
Qed.

Lemma selection_changes_only_by_pointer_witness :
  selectedPolaroid (run [KeyDown true; PanelPointerDown 3] initial)
  = Some 3%nat /\
  In (PanelPointerDown 3) [KeyDown true; PanelPointerDown 3].
Proof.
  split; [reflexivity |].
  apply (proj1 (proj2 (proj2 (proj2 selection_changes_only_by_pointer)))
               [KeyDown true; PanelPointerDown 3] 3%nat).
  reflexivity.
Defined.

(** * Further properties of the per-frame drivers *)

Section Drivers.

Lemma easeInOutCubic_unit (p : R) :
  0 <= p <= 1 -> 0 <= easeInOutCubic p <= 1.
Proof.
  intros Hp. split.
  - rewrite <- easeInOutCubic_0. apply easeInOutCubic_mono. lra.
  - rewrite <- easeInOutCubic_1. apply easeInOutCubic_mono. lra.
Qed.

Lemma vector_eta (v : Vector3) : mkVector3 (vx v) (vy v) (vz v) = v.
Proof. destruct v. reflexivity. Qed.

Lemma lerp_at_1 (a b : Vector3) : lerp a b 1 = b.
Proof.
  destruct a, b. unfold lerp. simpl. f_equal; ring.
Qed.

Lemma lerp_same (a b : Vector3) (t : R) : a = b -> lerp a b t = a.
Proof.
  intros E. subst b. destruct a. unfold lerp. simpl. f_equal; ring.
Qed.

Lemma wobble_bound (x k : R) : Rabs (sin x * k) <= Rabs k.
Proof.
  rewrite Rabs_mult.
  pose proof (SIN_bound x) as Hs.
  assert (Ha : Rabs (sin x) <= 1) by (apply Rabs_le; lra).
  pose proof (Rabs_pos k). nra.
Qed.

Lemma between_lerp (a b t : R) :
  0 <= t <= 1 -> Rmin a b <= a + (b - a) * t <= Rmax a b.
Proof.
  intros Ht. unfold Rmin, Rmax. destruct (Rle_dec a b); nra.
Qed.

End Drivers.

(** X17.  The instanced driver at progress 1 writes exactly the tree
    position and tree scale (the float term vanishes).  For a progress in
    [0,1] the factor is in [0,1], the horizontal coordinates lie between
    those of the scatter and tree positions, and the height differs from the
    blended height by at most [(1 - t) * |wobble|]; at progress 0 the point
    is at its scatter position up to a vertical float of at most
    [|wobble|]. *)
Theorem instancedPosition_blend
        (s : TreeStore) (time wobble : R) (p : MorphPoint) :
  (progress s = 1 ->
   instancedPosition s time wobble p = treePosition p /\
   instancedScale s p = treeScale p) /\
  (0 <= progress s <= 1 ->
   0 <= morphFactor s <= 1 /\
   Rmin (vx (scatterPosition p)) (vx (treePosition p))
   <= vx (instancedPosition s time wobble p)
   <= Rmax (vx (scatterPosition p)) (vx (treePosition p)) /\
   Rmin (vz (scatterPosition p)) (vz (treePosition p))
   <= vz (instancedPosition s time wobble p)
   <= Rmax (vz (scatterPosition p)) (vz (treePosition p)) /\
   Rabs (vy (instancedPosition s time wobble p)
         - vy (lerp (scatterPosition p) (treePosition p) (morphFactor s)))
   <= (1 - morphFactor s) * Rabs wobble) /\
  (progress s = 0 ->
   vx (instancedPosition s time wobble p) = vx (scatterPosition p) /\
   vz (instancedPosition s time wobble p) = vz (scatterPosition p) /\
   Rabs (vy (instancedPosition s time wobble p) - vy (scatterPosition p))
   <= Rabs wobble).
Proof.
  split; [| split].
  - intros H1. unfold instancedPosition, instancedScale, morphFactor.
    rewrite H1, easeInOutCubic_1. rewrite !lerp_at_1. split; [| reflexivity].
    destruct (treePosition p). simpl. f_equal. ring.
  - intros Hp. pose proof (easeInOutCubic_unit _ Hp) as Ht.
    fold (morphFactor s) in Ht.
    unfold instancedPosition. set (t := morphFactor s) in *. simpl.
    split; [exact Ht |].
    split; [apply between_lerp; exact Ht |].
    split; [apply between_lerp; exact Ht |].
    match goal with
    | |- Rabs (?a + ?w - ?a) <= _ => replace (a + w - a) with w by ring
    end.
    rewrite Rabs_mult.
    pose proof (SIN_bound (time * (9 / 10) + seed p * (1 / 10000))) as Hs.
    assert (Ha : Rabs (sin (time * (9 / 10) + seed p * (1 / 10000))) <= 1)
      by (apply Rabs_le; lra).
    rewrite (Rabs_mult (1 - t) wobble).
    rewrite (Rabs_pos_eq (1 - t)) by lra.
    pose proof (Rabs_pos wobble).
    assert (0 <= (1 - t) * Rabs wobble) by nra.
    pose proof (Rabs_pos (sin (time * (9 / 10) + seed p * (1 / 10000)))).
    nra.
  - intros H0. unfold instancedPosition, morphFactor.
    rewrite H0, easeInOutCubic_0. simpl.
    split; [ring |]. split; [ring |].
    match goal with
    | |- Rabs ?e <= _ =>
        replace e
          with (sin (time * (9 / 10) + seed p * (1 / 10000)) * wobble) by ring
    end.
    apply wobble_bound.
Qed.

Lemma instancedPosition_blend_witness :
  progress initial = 1 /\
  forall p, instancedPosition initial 0 (45 / 100) p = treePosition p.
Proof.
  split; [reflexivity |]. intros p.
  apply (proj1 (proj1 (instancedPosition_blend initial 0 (45 / 100) p)
                      eq_refl)).
Defined.

(** X18.  A point whose two scales are equal is written at that scale for
    every store state, also one whose progress is out of range; this holds
    for every point [buildMorphPoints] and [buildPolaroidPoints] build, in
    the instanced driver and in the panel driver. *)
Theorem built_points_keep_their_scale (s : TreeStore) :
  (forall p, treeScale p = scatterScale p ->
             instancedScale s p = scatterScale p /\
             polaroidScale s p = scatterScale p) /\
  (forall N opts g,
      Forall (fun p => instancedScale s p = scatterScale p)
             (fst (buildMorphPoints N opts g))) /\
  (forall cone count g,
      Forall (fun p => polaroidScale s p = mkVector3 (9 / 10) (9 / 10) (9 / 10))
             (fst (buildPolaroidPoints cone count g))).
Proof.
  assert (Hsame : forall p, treeScale p = scatterScale p ->
                            lerp (scatterScale p) (treeScale p) (morphFactor s)
                            = scatterScale p).
  { intros p E. apply lerp_same. symmetry. exact E. }
  split; [| split].
  - intros p E. unfold instancedScale, polaroidScale.
    split; apply Hsame; exact E.
  - intros N opts g. unfold buildMorphPoints, forPush.
    apply pushLoop_Forall. intros i g'. unfold instancedScale.
    apply Hsame. apply (morphPointAt_scale opts i g').
  - intros cone count g. unfold buildPolaroidPoints, forPush.
    apply pushLoop_Forall. intros i g'.
    destruct (polaroidPointAt_fields cone count i g')
      as [_ [_ [_ [_ [_ [H6 H7]]]]]].
    unfold polaroidScale. rewrite Hsame by (rewrite H6, H7; reflexivity).
    exact H6.
Qed.

Lemma built_points_keep_their_scale_witness :
  let p := mkMorphPoint (mkVector3 0 0 0) (mkVector3 1 1 1)
                        quarterTurn quarterTurn
                        (mkVector3 2 2 2) (mkVector3 2 2 2) 0 in
  treeScale p = scatterScale p /\
  instancedScale (setProgress 7 initial) p = scatterScale p.
Proof.
  cbv zeta. split; [reflexivity |].
  apply (proj1 (proj1 (built_points_keep_their_scale (setProgress 7 initial))
                      (mkMorphPoint (mkVector3 0 0 0) (mkVector3 1 1 1)
                                    quarterTurn quarterTurn
                                    (mkVector3 2 2 2) (mkVector3 2 2 2) 0)
                      eq_refl)).
Defined.

(** X19.  The panel alignment weight is always in [0,1]; it is 0 as long as
    the eased progress is at most 0.75, in particular for every progress up
    to one half, and it is 1 once the progress reaches 1. *)
Theorem alignEased_range (s : TreeStore) :
  0 <= alignEased s <= 1 /\
  (morphFactor s <= 75 / 100 -> alignEased s = 0) /\
  (progress s <= 1 / 2 -> alignEased s = 0) /\
  (1 <= progress s -> alignEased s = 1).
Proof.
  assert (Hzero : morphFactor s <= 75 / 100 -> alignEased s = 0).
  { intros Ht. unfold alignEased.
    rewrite clamp_below; [ring |].
    apply div_le_0; lra. }
  split; [| split; [exact Hzero | split]].
  - unfold alignEased.
    pose proof (clamp_unit ((morphFactor s - 75 / 100) / (25 / 100))) as Hc.
    set (a := MathUtils.clamp _ 0 1) in *.
    split; [nra |].
    assert (H : 1 - a * a * (3 - 2 * a) = (1 - a) * (1 - a) * (1 + 2 * a))
      by ring.
    assert (0 <= (1 - a) * (1 - a) * (1 + 2 * a)).
    { apply Rmult_le_pos; [nra | lra]. }
    lra.
  - intros Hp. apply Hzero. unfold morphFactor.
    pose proof (easeInOutCubic_mono _ _ Hp) as Hm.
    rewrite easeInOutCubic_half in Hm. lra.
  - intros Hp. unfold alignEased.
    assert (Ht : 1 <= morphFactor s).
    { unfold morphFactor. rewrite <- easeInOutCubic_1.
      apply easeInOutCubic_mono. exact Hp. }
    rewrite clamp_above; [ring |].
    apply div_ge_1; lra.
Qed.

Lemma alignEased_range_witness :
  progress (toggle initial) <= 1 / 2 /\ alignEased (toggle initial) = 0.
Proof.
  split; [simpl; lra |].
  apply (proj1 (proj2 (proj2 (alignEased_range (toggle initial))))).
  simpl. lra.
Defined.

(** X20.  In the focus branch, while the focus point stays where it is,
    every frame keeps 82 percent of the panel's offset from the focus point
    and of its scale's offset from 2.3 in each coordinate: after [n] frames
    the offset is [0.82^n] times the first one, so the squared distance to
    the focus point never grows. *)
Theorem focus_steps_contract (focusLocal position scale : Vector3) (n : nat) :
  let after := Nat.iter n (focusPositionStep focusLocal) position in
  sub after focusLocal
  = multiplyScalar (sub position focusLocal) ((82 / 100) ^ n) /\
  lengthSq (sub after focusLocal) <= lengthSq (sub position focusLocal) /\
  sub (Nat.iter n focusScaleStep scale)
      (mkVector3 (23 / 10) (23 / 10) (23 / 10))
  = multiplyScalar
      (sub scale (mkVector3 (23 / 10) (23 / 10) (23 / 10)))
      ((82 / 100) ^ n).
Proof.
  cbv zeta.
  assert (Hstep : forall target v m,
             sub (Nat.iter m (fun q => lerp q target (18 / 100)) v) target
             = multiplyScalar (sub v target) ((82 / 100) ^ m)).
  { intros target v. induction m as [| m IH].
    - simpl. unfold sub, multiplyScalar. simpl. f_equal; ring.
    - simpl Nat.iter.
      set (q := Nat.iter m (fun q => lerp q target (18 / 100)) v) in *.
      assert (E : sub (lerp q target (18 / 100)) target
                  = multiplyScalar (sub q target) (82 / 100)).
      { unfold sub, lerp, multiplyScalar. simpl. f_equal; field. }
      rewrite E, IH. unfold multiplyScalar. simpl. f_equal; ring. }
  split; [| split].
  - apply (Hstep focusLocal position n).
  - change (focusPositionStep focusLocal)
      with (fun q => lerp q focusLocal (18 / 100)).
    rewrite Hstep.
    assert (Hc : 0 <= (82 / 100) ^ n <= 1).
    { split; [apply pow_le; lra |].
      rewrite <- (pow1 n). apply pow_incr. lra. }
    set (c := (82 / 100) ^ n) in *.
    set (d := sub position focusLocal). clearbody c d.
    unfold lengthSq, multiplyScalar. simpl.
    assert (Hcc : c * c <= 1) by nra.
    pose proof (lengthSq_nonneg d) as Hd. unfold lengthSq in Hd.
    replace (vx d * c * (vx d * c) + vy d * c * (vy d * c)
             + vz d * c * (vz d * c))
      with ((vx d * vx d + vy d * vy d + vz d * vz d) * (c * c)) by ring.
    assert (Hscale : forall X k, 0 <= X -> k <= 1 -> X * k <= X)
      by (intros X k HX Hk; nra).
    apply Hscale; assumption.
  - apply (Hstep (mkVector3 (23 / 10) (23 / 10) (23 / 10)) scale n).
Qed.

(** * The garland *)

Section Garland.

Lemma garlandRng_unit (i : R) : 0 <= garlandRng i < 1.
Proof.
  unfold garlandRng.
  pose proof (floor_le (sin (i * (999123 / 1000)) * 10000)).
  pose proof (floor_gt (sin (i * (999123 / 1000)) * 10000)).
  lra.
Qed.

Lemma garlandU_unit (count : Z) (i : nat) :
  (2 <= count)%Z -> (Z.of_nat i < count)%Z -> 0 <= garlandU count i <= 1.
Proof.
  intros Hc Hi. unfold garlandU.
  assert (Hd : 0 < IZR count - 1).
  { apply IZR_le in Hc. lra. }
  assert (Hi0 : 0 <= INR i) by apply pos_INR.
  assert (Hi1 : INR i <= IZR count - 1).
  { rewrite INR_IZR_INZ, <- minus_IZR. apply IZR_le. lia. }
  split; [apply div_ge_0; assumption | apply div_le_1; assumption].
Qed.

Lemma lerp_scalar_strict (a b t : R) :
  a < b -> 0 <= t < 1 -> a <= MathUtils.lerp a b t < b.
Proof. intros Hab Ht. unfold MathUtils.lerp. nra. Qed.

Lemma circle_sq (r ang : R) :
  cos ang * r * (cos ang * r) + sin ang * r * (sin ang * r) = r * r.
Proof.
  pose proof (sin_cos_sq ang) as H.
  replace (cos ang * r * (cos ang * r) + sin ang * r * (sin ang * r))
    with (r * r * (sin ang * sin ang + cos ang * cos ang)) by ring.
  rewrite H. ring.
Qed.

End Garland.

(** X21.  The garland's index hash returns a value in [0,1) for every
    argument. *)
Theorem garlandRng_in_unit_interval (i : R) : 0 <= garlandRng i < 1.
Proof. exact (garlandRng_unit i). Qed.

(** X22.  For a garland of at least two beads, bead [i] of the built list
    has the spiral position of index [i]; the first bead sits at the
    base, at [(radiusBase + 0.32, yBase, 0)], and the last one at the height
    [yBase + height]; every bead's spiral parameter [u] is in [0,1] and its
    distance from the axis is the blended frustum radius plus 0.32.  The
    curve point of the same index and count has the same height and lies
    0.03 further out in the same direction. *)
Theorem garlandTreePosition_spiral
        (setFromUnitVectors : Vector3 -> Vector3 -> Quaternion)
        (cone : ConeParams) (count : Z) (turns : R) (i : nat) :
  (2 <= count)%Z -> (Z.of_nat i < count)%Z ->
  (exists p,
     nth_error (buildGarlandPoints setFromUnitVectors cone count turns) i
     = Some p /\
     treePosition p = garlandTreePosition cone count turns i) /\
  garlandTreePosition cone count turns 0
  = mkVector3 (radiusBase cone + 32 / 100) (yBase cone) 0 /\
  vy (garlandTreePosition cone count turns (Z.to_nat (count - 1)))
  = yBase cone + height cone /\
  0 <= garlandU count i <= 1 /\
  vx (garlandTreePosition cone count turns i)
  * vx (garlandTreePosition cone count turns i)
  + vz (garlandTreePosition cone count turns i)
    * vz (garlandTreePosition cone count turns i)
  = (MathUtils.lerp (radiusBase cone) (radiusTop cone) (garlandU count i)
     + 32 / 100)
    * (MathUtils.lerp (radiusBase cone) (radiusTop cone) (garlandU count i)
       + 32 / 100) /\
  vy (garlandCurvePoint cone turns count i)
  = vy (garlandTreePosition cone count turns i) /\
  vx (garlandCurvePoint cone turns count i)
  = vx (garlandTreePosition cone count turns i)
    + cos (garlandU count i * turns * PI * 2) * (3 / 100) /\
  vz (garlandCurvePoint cone turns count i)
  = vz (garlandTreePosition cone count turns i)
    + sin (garlandU count i * turns * PI * 2) * (3 / 100).
Proof.
  intros Hc Hi.
  assert (Hd : 0 < IZR count - 1) by (apply IZR_le in Hc; lra).
  split; [| split; [| split; [| split; [| split; [| split; [| split]]]]]].
  - exists (garlandPointAt setFromUnitVectors cone count turns i).
    split; [| reflexivity].
    unfold buildGarlandPoints. rewrite nth_error_map, nth_error_seq.
    destruct (Nat.ltb_spec i (Z.to_nat count)) as [_ | Hge]; [| lia].
    reflexivity.
  - unfold garlandTreePosition, garlandU, MathUtils.lerp. simpl INR.
    replace (0 / (IZR count - 1)) with 0 by (field; lra).
    replace (0 * turns * PI * 2) with 0 by ring.
    rewrite cos_0, sin_0. f_equal; lra.
  - unfold garlandTreePosition, garlandU. simpl.
    rewrite INR_IZR_INZ, Z2Nat.id by lia. rewrite minus_IZR.
    field. lra.
  - apply garlandU_unit; assumption.
  - unfold garlandTreePosition. simpl. apply circle_sq.
  - reflexivity.
  - unfold garlandCurvePoint, garlandTreePosition, garlandU. simpl.
    field; lra.
  - unfold garlandCurvePoint, garlandTreePosition, garlandU. simpl.
    field; lra.
Qed.

Lemma garlandTreePosition_spiral_witness :
  let cone := mkConeParams (105 / 10) (46 / 10) (25 / 100) (- (48 / 10)) in
  (2 <= 160)%Z /\ (Z.of_nat 0 < 160)%Z /\
  garlandTreePosition cone 160 7 0
  = mkVector3 (radiusBase cone + 32 / 100) (yBase cone) 0.
Proof.
  cbv zeta. split; [lia |]. split; [lia |].
  apply (proj1 (proj2 (garlandTreePosition_spiral
                         (fun _ _ => quarterTurn)
                         (mkConeParams (105 / 10) (46 / 10) (25 / 100)
                                       (- (48 / 10)))
                         160 7 0 ltac:(lia) ltac:(lia)))).
Defined.

(** X23.  [buildGarlandPoints] returns [count] beads whatever
    [setFromUnitVectors] does; bead [k] has the seed [k], the scale 0.22 in
    both states and a unit scatter orientation.  Its scatter position lies
    in a ring around the tree: for [radiusBase >= -6] between the distances
    [radiusBase + 6] and [radiusBase + 10] from the axis, and for
    [height > -3] at a height in [yBase - 1, yBase + height + 2). *)
Theorem buildGarlandPoints_beads
        (setFromUnitVectors : Vector3 -> Vector3 -> Quaternion)
        (cone : ConeParams) (count : Z) (turns : R) :
  List.length (buildGarlandPoints setFromUnitVectors cone count turns)
  = Z.to_nat count /\
  (forall k, (k < Z.to_nat count)%nat ->
     exists p,
       nth_error (buildGarlandPoints setFromUnitVectors cone count turns) k
       = Some p /\
       seed p = INR k /\
       scatterPosition p = garlandScatterPosition cone k /\
       scatterScale p = mkVector3 (22 / 100) (22 / 100) (22 / 100) /\
       treeScale p = scatterScale p /\
       quatNormSq (scatterQuaternion p) = 1) /\
  (forall k,
     (0 <= radiusBase cone + 6 ->
      (radiusBase cone + 6) * (radiusBase cone + 6)
      <= vx (garlandScatterPosition cone k) * vx (garlandScatterPosition cone k)
         + vz (garlandScatterPosition cone k)
           * vz (garlandScatterPosition cone k)
      < (radiusBase cone + 10) * (radiusBase cone + 10)) /\
     (-3 < height cone ->
      yBase cone - 1 <= vy (garlandScatterPosition cone k)
      < yBase cone + height cone + 2)).
Proof.
  split; [| split].
  - unfold buildGarlandPoints. rewrite length_map, length_seq. reflexivity.
  - intros k Hk. unfold buildGarlandPoints.
    exists (garlandPointAt setFromUnitVectors cone count turns k).
    split.
    + rewrite nth_error_map, nth_error_seq.
      destruct (Nat.ltb_spec k (Z.to_nat count)) as [_ | Hge]; [| lia].
      reflexivity.
    + unfold garlandPointAt. simpl.
      repeat split. apply setFromEuler_unit_norm.
  - intros k. split.
    + intros Hr. unfold garlandScatterPosition. simpl. rewrite circle_sq.
      pose proof (lerp_scalar_strict (radiusBase cone + 6)
                                     (radiusBase cone + 10)
                                     (garlandRng (INR k)) ltac:(lra)
                                     (garlandRng_unit _)) as Hl.
      set (rr := MathUtils.lerp _ _ _) in *. nra.
    + intros Hh. unfold garlandScatterPosition. simpl.
      apply lerp_scalar_strict; [lra | apply garlandRng_unit].
Qed.

Lemma buildGarlandPoints_beads_witness :
  let cone := mkConeParams (105 / 10) (46 / 10) (25 / 100) (- (48 / 10)) in
  -3 < height cone /\
  yBase cone - 1 <= vy (garlandScatterPosition cone 5)
  < yBase cone + height cone + 2.
Proof.
  cbv zeta. split; [simpl; lra |].
  apply (proj2 (proj2 (proj2 (buildGarlandPoints_beads
                                (fun _ _ => quarterTurn)
                                (mkConeParams (105 / 10) (46 / 10) (25 / 100)
                                              (- (48 / 10)))
                                160 7)) 5%nat)).
  simpl. lra.
Defined.

(** * The panel driver's upright basis *)

Section UprightBasis.

Lemma cross_worldUp (a b c : R) :
  cross (mkVector3 a b c) worldUp = mkVector3 (- c) 0 a.
Proof. unfold cross, worldUp. simpl. f_equal; ring. Qed.

Lemma rightGuarded_regular (a b c : R) :
  1 / 100000000 <= c * c + a * a ->
  rightGuarded (mkVector3 a b c) = mkVector3 (- c) 0 a.
Proof.
  intros H. unfold rightGuarded. rewrite cross_worldUp.
  destruct (Rlt_dec _ _) as [Hlt | _]; [| reflexivity].
  exfalso. unfold lengthSq in Hlt. simpl in Hlt. lra.
Qed.

Lemma normalize_horizontal (x z L : R) :
  0 < L -> L * L = x * x + z * z ->
  normalize (mkVector3 x 0 z) = mkVector3 (x / L) 0 (z / L).
Proof.
  intros HL HLL.
  assert (Hlen : length (mkVector3 x 0 z) = L).
  { unfold length. rewrite lengthSq_horizontal, <- HLL.
    apply sqrt_square. lra. }
  unfold normalize, normalizeDivisor, divideScalar, multiplyScalar.
  rewrite Hlen. destruct (Req_dec_T L 0); [lra |].
  simpl. f_equal; field; lra.
Qed.

End UprightBasis.

(** X24.  In the panel driver, for a unit vector [outward] that is not
    within the guard of the vertical, the vectors [right] and [up] have
    length 1 and [right x up] is [- outward]: the three columns handed to
    [makeBasis] form a mirrored (left-handed) frame, not a rotation.  The
    same holds with the fallback [right = (1,0,0)] when [outward] is exactly
    vertical. *)
Theorem upright_basis_is_mirrored :
  (forall outward,
      lengthSq outward = 1 ->
      1 / 100000000 <= lengthSq (cross outward worldUp) ->
      let right := normalize (rightGuarded outward) in
      let up := normalize (cross right outward) in
      lengthSq right = 1 /\ lengthSq up = 1 /\
      cross right up = multiplyScalar outward (-1)) /\
  (forall b, b * b = 1 ->
      let outward := mkVector3 0 b 0 in
      let right := normalize (rightGuarded outward) in
      let up := normalize (cross right outward) in
      right = mkVector3 1 0 0 /\ up = mkVector3 0 0 b /\
      cross right up = multiplyScalar outward (-1)).
Proof.
  split.
  - intros [a b c] Hunit Hreg. cbv zeta.
    rewrite cross_worldUp in Hreg.
    unfold lengthSq in Hunit, Hreg. simpl in Hunit, Hreg.
    assert (Hpos : 0 < c * c + a * a) by lra.
    set (L := sqrt (c * c + a * a)).
    assert (HL : 0 < L) by (apply sqrt_lt_R0; exact Hpos).
    assert (HLL : L * L = c * c + a * a) by (apply sqrt_sqrt; lra).
    rewrite rightGuarded_regular by lra.
    rewrite (normalize_horizontal (- c) a L HL) by lra.
    assert (Hup0 : cross (mkVector3 (- c / L) 0 (a / L)) (mkVector3 a b c)
                   = mkVector3 (- (a * b) / L) L (- (c * b) / L)).
    { unfold cross. simpl. f_equal; try (field; lra).
      apply Rmult_eq_reg_r with L; [| lra].
      rewrite HLL. field. lra. }
    rewrite Hup0.
    assert (Hupl : lengthSq (mkVector3 (- (a * b) / L) L (- (c * b) / L)) = 1).
    { unfold lengthSq. simpl.
      replace (- (a * b) / L * (- (a * b) / L) + L * L
               + - (c * b) / L * (- (c * b) / L))
        with (b * b * (c * c + a * a) / (L * L) + L * L) by (field; lra).
      rewrite HLL. replace (b * b * (c * c + a * a) / (c * c + a * a))
                     with (b * b) by (field; lra).
      lra. }
    rewrite (normalize_of_unit _ Hupl).
    split; [| split; [exact Hupl |]].
    + unfold lengthSq. simpl.
      replace (- c / L * (- c / L) + 0 * 0 + a / L * (a / L))
        with ((c * c + a * a) / (L * L)) by (field; lra).
      rewrite HLL. field. lra.
    + unfold cross, multiplyScalar. simpl. f_equal.
      * field. lra.
      * apply Rmult_eq_reg_r with (L * L); [| nra].
        replace ((a / L * (- (a * b) / L) - - c / L * (- (c * b) / L))
                 * (L * L))
          with (- b * (c * c + a * a)) by (field; lra).
        rewrite HLL. ring.
      * field. lra.
  - intros b Hb. cbv zeta.
    assert (Hr : rightGuarded (mkVector3 0 b 0) = mkVector3 1 0 0).
    { unfold rightGuarded. rewrite cross_worldUp.
      destruct (Rlt_dec _ _) as [_ | N]; [reflexivity |].
      exfalso. apply N. unfold lengthSq. simpl. lra. }
    rewrite Hr.
    rewrite (normalize_of_unit (mkVector3 1 0 0))
      by (unfold lengthSq; simpl; ring).
    assert (Hup : cross (mkVector3 1 0 0) (mkVector3 0 b 0) = mkVector3 0 0 b)
      by (unfold cross; simpl; f_equal; ring).
    rewrite Hup.
    rewrite (normalize_of_unit (mkVector3 0 0 b))
      by (unfold lengthSq; simpl; lra).
    split; [reflexivity |]. split; [reflexivity |].
    unfold cross, multiplyScalar. simpl. f_equal; ring.
Qed.

Lemma upright_basis_is_mirrored_witness :
  let outward := mkVector3 1 0 0 in
  lengthSq outward = 1 /\
  1 / 100000000 <= lengthSq (cross outward worldUp) /\
  cross (normalize (rightGuarded outward))
        (normalize (cross (normalize (rightGuarded outward)) outward))
  = multiplyScalar outward (-1).
Proof.
  cbv zeta.
  assert (H1 : lengthSq (mkVector3 1 0 0) = 1)
    by (unfold lengthSq; simpl; ring).
  assert (H2 : 1 / 100000000 <= lengthSq (cross (mkVector3 1 0 0) worldUp))
    by (unfold lengthSq, cross, worldUp; simpl; lra).
  split; [exact H1 |]. split; [exact H2 |].
  apply (proj2 (proj2 (proj1 upright_basis_is_mirrored
                             (mkVector3 1 0 0) H1 H2))).
Defined.
